(** * Post-training quantization pipeline: batch-norm folding and the
      graph converter

    A shallow embedding of two modules of the quantization tool,

    - [ilit/adaptor/tf_utils/transform_graph/fold_batch_norm.py]
      (class [FoldBatchNormNodes]), and
    - [ilit/adaptor/tf_utils/graph_converter.py]
      (classes [OutputGrabber] and [GraphConverter]),

    followed by the properties the specification states about them.

    Conventions.  Python [str] values are [string]s whose characters are
    the code points below 256.  A dictionary is a [gmap]; a dictionary that
    only ever stores [True] is a [gset].  A function that may raise returns
    a [result]; methods that mutate their object thread the object's state
    explicitly.  Floating-point scalars are kept abstract behind the class
    [Float], which has a binary64 instance (used to run the model) and a
    real-number instance (used for the closed-form folding formulas). *)

From Stdlib Require Import PrimFloat.
From Stdlib Require Import Ascii Reals Lra.
From stdpp Require Import gmap strings list.

(* ================================================================== *)
(** * Python values shared by both modules *)
(* ================================================================== *)

Module Py.

(** The exceptions that the modelled code raises or lets through.
    [ValueError args] carries the positional arguments of the
    constructor call; [Wrapped e] stands for [ValueError(e)] raised
    [from e]; [External tag] is any exception thrown by a collaborator
    (the inference engine, a graph pass that is not modelled here). *)
Inductive exn : Type :=
| AssertionError
| IndexError
| TypeError
| KeyError (key : string)
| ValueError (args : list string)
| Wrapped (cause : exn)
| External (tag : string).

Inductive result (A : Type) : Type :=
| Ok (a : A)
| Raise (e : exn).
Arguments Ok {A} a.
Arguments Raise {A} e.

Definition bind {A B} (r : result A) (k : A -> result B) : result B :=
  match r with
  | Ok a => k a
  | Raise e => Raise e
  end.

#[global] Instance result_ret : MRet result := @Ok.
#[global] Instance result_bind : MBind result := fun A B k r => bind r k.

Definition is_raise {A} (r : result A) : Prop :=
  match r with Ok _ => False | Raise _ => True end.

(** [seq[i]] for a non-negative index: [IndexError] when out of range. *)
Definition index {A} (l : list A) (i : nat) : result A :=
  match l !! i with
  | Some x => Ok x
  | None => Raise IndexError
  end.

(** [list.index(x)]: position of the first occurrence. *)
Fixpoint list_index (x : string) (l : list string) : result nat :=
  match l with
  | [] => Raise (ValueError [x +:+ " is not in list"])
  | y :: l' => if String.eqb x y then Ok 0
               else i ← list_index x l'; Ok (S i)
  end.

(** ** Strings *)

Definition newline : ascii := ascii_of_nat 10.

(** [str.isspace] on code points below 256. *)
Definition is_space (c : ascii) : bool :=
  let n := nat_of_ascii c in
  ((9 <=? n) && (n <=? 13)) || ((28 <=? n) && (n <=? 32))
  || (n =? 133) || (n =? 160).

(** [\d] on code points below 256: the ASCII digits. *)
Definition is_digit (c : ascii) : bool :=
  let n := nat_of_ascii c in (48 <=? n) && (n <=? 57).

Fixpoint lstrip (s : string) : string :=
  match s with
  | String c r => if is_space c then lstrip r else s
  | EmptyString => EmptyString
  end.

Fixpoint rstrip (s : string) : string :=
  match s with
  | String c r =>
      match rstrip r with
      | EmptyString => if is_space c then EmptyString
                       else String c EmptyString
      | r' => String c r'
      end
  | EmptyString => EmptyString
  end.

(** [s.strip()] *)
Definition strip (s : string) : string := rstrip (lstrip s).

(** [s.count(c)] for a one-character needle. *)
Fixpoint count (c : ascii) (s : string) : nat :=
  match s with
  | String d r => (if Ascii.eqb d c then 1 else 0) + count c r
  | EmptyString => 0
  end.

(** [[i for i, v in enumerate(s) if v == c]], counted from [from]. *)
Fixpoint positions (c : ascii) (from : nat) (s : string) : list nat :=
  match s with
  | String d r =>
      if Ascii.eqb d c then from :: positions c (S from) r
      else positions c (S from) r
  | EmptyString => []
  end.

(** [l[::2]] *)
Fixpoint every_other {A} (l : list A) : list A :=
  match l with
  | x :: _ :: r => x :: every_other r
  | _ => l
  end.

(** [s[a:b]] for [0 <= a], and [s[a:]]. *)
Definition slice (s : string) (a b : nat) : string :=
  String.substring a (b - a) s.
Definition slice_from (s : string) (a : nat) : string :=
  String.substring a (String.length s - a) s.

Fixpoint contains (c : ascii) (s : string) : bool :=
  match s with
  | String d r => Ascii.eqb d c || contains c r
  | EmptyString => false
  end.

Fixpoint all_digits (s : string) : bool :=
  match s with
  | String d r => is_digit d && all_digits r
  | EmptyString => true
  end.

(** [str(e)] *)
Fixpoint exn_str (e : exn) : string :=
  match e with
  | AssertionError => ""
  | IndexError => "list index out of range"
  | TypeError => "bad argument type"
  | KeyError k => "'" +:+ k +:+ "'"
  | ValueError args => String.concat ", " args
  | Wrapped cause => exn_str cause
  | External tag => tag
  end.

(** ** Statements

    A method body that updates the state [S] of its object and may
    complete normally, by [return v], or by raising.  The state survives
    an exception. *)
Inductive completion (S V : Type) : Type :=
| Normal (s : S)
| Return (v : V) (s : S)
| Throw (e : exn) (s : S).
Arguments Normal {S V} s.
Arguments Return {S V} v s.
Arguments Throw {S V} e s.

Definition stmt (S V : Type) : Type := S -> completion S V.

Definition state_of {S V} (o : completion S V) : S :=
  match o with Normal s | Return _ s | Throw _ s => s end.

Definition with_state {S V} (o : completion S V) (s : S)
    : completion S V :=
  match o with
  | Normal _ => Normal s
  | Return v _ => Return v s
  | Throw e _ => Throw e s
  end.

Definition skip {S V} : stmt S V := fun s => Normal s.

(** [c1; c2] *)
Definition seq {S V} (c1 c2 : stmt S V) : stmt S V :=
  fun s => match c1 s with Normal s' => c2 s' | o => o end.

Definition raise {S V} (e : exn) : stmt S V := fun s => Throw e s.

(** [if b: c] *)
Definition when {S V} (b : S -> bool) (c : stmt S V) : stmt S V :=
  fun s => if b s then c s else Normal s.

(** [try: body / except Exception as e: handler e / finally: final].
    The [finally] clause runs on every way out of the first two; when it
    completes by [return] or by raising, the pending completion (a
    pending exception included) is discarded. *)
Definition try_except_finally {S V} (body : stmt S V)
    (handler : exn -> stmt S V) (final : stmt S V) : stmt S V :=
  fun s =>
    let pending :=
      match body s with
      | Throw e s' => handler e s'
      | o => o
      end in
    match final (state_of pending) with
    | Normal s'' => with_state pending s''
    | o => o
    end.

(** [try: body / except Exception as e: handler e / else: orelse].  The
    [else] clause runs when the body completes normally; what it raises
    is not handled by the [except] clause. *)
Definition try_except_else {S V} (body : stmt S V)
    (handler : exn -> stmt S V) (orelse : stmt S V) : stmt S V :=
  fun s =>
    match body s with
    | Normal s' => orelse s'
    | Return v s' => Return v s'
    | Throw e s' => handler e s'
    end.

End Py.
Import Py.

(* ================================================================== *)
(** * fold_batch_norm.py *)
(* ================================================================== *)

Module FoldBatchNorm.

(** ** The regular-expression search of [node_name_from_input]

    The pattern is: group 1 of any characters (greedy), a colon, one or
    more digits, end of string.  It is matched the way the backtracking
    engine does it.
    The dot matches any character but a line feed; the end anchor matches
    at the end of the string and just before a line feed that ends it. *)

(** Zero or more digits and then the end, at the start of [t] (the digit
    run is greedy, and giving a digit back cannot help the end anchor). *)
Fixpoint digits_to_end (t : string) : bool :=
  match t with
  | EmptyString => true
  | String c r =>
      if is_digit c then digits_to_end r
      else Ascii.eqb c newline && String.eqb r EmptyString
  end.

(** A colon, one or more digits and the end, at the start of [t]. *)
Definition slot_suffix (t : string) : bool :=
  match t with
  | String c (String d r) =>
      Ascii.eqb c ":"%char && is_digit d && digits_to_end r
  | _ => false
  end.

(** The whole pattern anchored at the start of [s]; the result is group
    1.  The group is greedy: it first tries to take one more character. *)
Fixpoint group_at (s : string) : option string :=
  match s with
  | EmptyString => None
  | String c r =>
      let longer := if Ascii.eqb c newline then None else group_at r in
      match longer with
      | Some g => Some (String c g)
      | None => if slot_suffix s then Some EmptyString else None
      end
  end.

(** [re.search]: the match at the leftmost start position. *)
Fixpoint re_search (s : string) : option string :=
  match group_at s with
  | Some g => Some g
  | None =>
      match s with
      | EmptyString => None
      | String _ r => re_search r
      end
  end.

(** [node_name[1:]] when [node_name.startswith("^")]. *)
Definition strip_marker (node_name : string) : string :=
  match node_name with
  | String "^"%char r => r
  | _ => node_name
  end.

Definition node_name_from_input (node_name : string) : string :=
  let node_name := strip_marker node_name in
  match re_search node_name with
  | Some g => g
  | None => node_name
  end.

(** ** Scalars

    The arithmetic the pass performs on tensor elements.  [math_sqrt] is
    Python's [math.sqrt], which raises [ValueError] on a negative
    argument. *)
Class Float (F : Type) : Type := {
  f_zero : F;
  f_one : F;
  f_add : F -> F -> F;
  f_mul : F -> F -> F;
  f_div : F -> F -> F;
  f_neg : F -> F;
  math_sqrt : F -> result F
}.

Definition math_domain_error : exn := ValueError ["math domain error"].

(** IEEE 754 binary64, the arithmetic of Python floats and of [float64]
    arrays. *)
#[global] Instance float64 : Float PrimFloat.float := {|
  f_zero := PrimFloat.zero;
  f_one := PrimFloat.one;
  f_add := PrimFloat.add;
  f_mul := PrimFloat.mul;
  f_div := PrimFloat.div;
  f_neg := PrimFloat.opp;
  math_sqrt x := if PrimFloat.ltb x PrimFloat.zero
                 then Raise math_domain_error
                 else Ok (PrimFloat.sqrt x)
|}.

(** The real numbers: the same operations without rounding. *)
#[global] Instance real : Float R := {|
  f_zero := 0%R;
  f_one := 1%R;
  f_add := Rplus;
  f_mul := Rmult;
  f_div := Rdiv;
  f_neg := Ropp;
  math_sqrt x := if Rlt_dec x 0 then Raise math_domain_error
                 else Ok (sqrt x)
|}.

(** ** Graph IR *)

Section graph.
Context {F : Type} `{Float F}.

(** A tensor: element type tag, shape, and the elements in row-major
    order.  The same record serves for a [TensorProto] and for the
    [numpy] array made from it. *)
Record ndarray : Type := {
  dtype : N;
  shape : list nat;
  values : list F
}.

(** [AttrValue]: a tagged union, unset by default. *)
Inductive AttrValue : Type :=
| AttrUnset
| AttrS (s : string)
| AttrI (i : Z)
| AttrF (f : F)
| AttrB (b : bool)
| AttrType (t : N)
| AttrShape (dims : list Z)
| AttrTensor (t : ndarray)
| AttrOther (kind : string).

Record NodeDef : Type := {
  name : string;
  op : string;
  input : list string;
  attr : gmap string AttrValue
}.

(** [graph_def.node] *)
Definition GraphDef : Type := list NodeDef.

(** [node.attr[key]], which reads as the default value when absent. *)
Definition get_attr (node : NodeDef) (key : string) : AttrValue :=
  default AttrUnset (attr node !! key).

Definition attr_b (a : AttrValue) : bool :=
  match a with AttrB b => b | _ => false end.

Definition attr_f (a : AttrValue) : F :=
  match a with AttrF f => f | _ => f_zero end.

(** [dict[key]] on a class-level table. *)
Definition dict_get {A} (d : gmap string A) (key : string) : result A :=
  match d !! key with
  | Some v => Ok v
  | None => Raise (KeyError key)
  end.

Definition INPUT_ORDER : gmap string (list string) :=
  <["BatchNormWithGlobalNormalization" :=
      ["conv_op"; "mean_op"; "var_op"; "beta_op"; "gamma_op"]]>
  (<["FusedBatchNorm" :=
      ["conv_op"; "gamma_op"; "beta_op"; "mean_op"; "var_op"]]> ∅).

Definition EPSILON_ATTR : gmap string string :=
  <["BatchNormWithGlobalNormalization" := "variance_epsilon"]>
  (<["FusedBatchNorm" := "epsilon"]> ∅).

Definition node_from_map (node_map : gmap string NodeDef)
    (name : string) : result NodeDef :=
  let stripped_name := node_name_from_input name in
  match node_map !! stripped_name with
  | None =>
      Raise (ValueError ["No node named '" +:+ name +:+ "' found in map."])
  | Some n => Ok n
  end.

(** [tensor_util.MakeNdarray]: the elements must fill the shape. *)
Definition MakeNdarray (t : ndarray) : result ndarray :=
  if decide (length (values t) = foldr Nat.mul 1 (shape t)) then Ok t
  else Raise (ValueError ["cannot reshape array"]).

Definition values_from_const (node_def : NodeDef) : result ndarray :=
  if decide (op node_def = "Const") then
    match attr node_def !! "value" with
    | Some (AttrTensor input_tensor) => MakeNdarray input_tensor
    | _ => Raise TypeError
    end
  else
    Raise (ValueError ["Node named '" +:+ name node_def +:+
                       "' should be a Const op for values_from_const."]).

Definition scale_after_normalization (node : NodeDef) : bool :=
  if decide (op node = "BatchNormWithGlobalNormalization")
  then attr_b (get_attr node "scale_after_normalization")
  else true.

(** [node.input[self.INPUT_ORDER[node.op].index(role)]] *)
Definition operand (node : NodeDef) (role : string) : result string :=
  order ← dict_get INPUT_ORDER (op node);
  i ← list_index role order;
  index (input node) i.

Definition duplicate_error (nm : string) : exn :=
  ValueError ["Duplicate node names detected for "; nm].

(** The duplicate-name check that opens [do_transform]. *)
Fixpoint build_node_map (nodes : list NodeDef)
    (input_node_map : gmap string NodeDef)
    : result (gmap string NodeDef) :=
  match nodes with
  | [] => Ok input_node_map
  | node :: rest =>
      match input_node_map !! name node with
      | None => build_node_map rest (<[name node := node]> input_node_map)
      | Some _ => Raise (duplicate_error (name node))
      end
  end.

(** ** The scan loop of [do_transform] *)

(** One entry per [tf_logging.warning] call: which check failed, on
    which node, and (by name, by shape) what was found instead. *)
Inductive warning : Type :=
| NotConvolution (bn_name : string)
| NotConstant (role : string) (owner : string) (found : string)
| IncorrectShape (role : string) (found expected : list nat)
                 (bn_name : string).

(** The operands of a candidate that passed every check. *)
Record bn_match : Type := {
  conv_op : NodeDef;
  weights_op : NodeDef;
  weights : ndarray;
  mean_op : NodeDef;
  mean_value : ndarray;
  var_op : NodeDef;
  var_value : ndarray;
  beta_op : NodeDef;
  beta_value : ndarray;
  gamma_op : NodeDef;
  gamma_value : ndarray
}.

Definition is_batch_norm (node : NodeDef) : bool :=
  bool_decide (op node = "BatchNormWithGlobalNormalization")
  || bool_decide (op node = "FusedBatchNorm").

Definition is_convolution (node : NodeDef) : bool :=
  bool_decide (op node = "Conv2D")
  || bool_decide (op node = "DepthwiseConv2dNative").

(** [weights.shape[3]] for [Conv2D],
    [weights.shape[2] * weights.shape[3]] for [DepthwiseConv2dNative]. *)
Definition channel_count_of (conv : NodeDef) (w : ndarray) : result nat :=
  if decide (op conv = "Conv2D") then index (shape w) 3
  else
    s2 ← index (shape w) 2;
    s3 ← index (shape w) 3;
    Ok (s2 * s3).

(** The block repeated for [mean], [var], [beta] and [gamma]: resolve
    the operand, require a [Const], require the shape
    [(channel_count,)].  [inl] is the warning of a failed check. *)
Definition param_operand (input_node_map : gmap string NodeDef)
    (node : NodeDef) (role : string) (channel_count : nat)
    : result (warning + NodeDef * ndarray) :=
  ref ← operand node (role +:+ "_op");
  p ← node_from_map input_node_map ref;
  if decide (op p = "Const") then
    v ← values_from_const p;
    if decide (shape v = [channel_count]) then Ok (inr (p, v))
    else Ok (inl (IncorrectShape role (shape v) [channel_count]
                                 (name node)))
  else Ok (inl (NotConstant role (name node) (name p))).

(** The validation part of the loop body, for a node whose op is one of
    the two batch-norm variants.  [inl w]: the candidate is skipped
    with warning [w] (a [continue]). *)
Definition match_candidate (input_node_map : gmap string NodeDef)
    (node : NodeDef) : result (warning + bn_match) :=
  ref ← operand node "conv_op";
  conv ← node_from_map input_node_map ref;
  if negb (is_convolution conv) then Ok (inl (NotConvolution (name node)))
  else
    wref ← index (input conv) 1;
    w_op ← node_from_map input_node_map wref;
    if decide (op w_op = "Const") then
      w ← values_from_const w_op;
      channel_count ← channel_count_of conv w;
      mean ← param_operand input_node_map node "mean" channel_count;
      match mean with
      | inl warn => Ok (inl warn)
      | inr (mean_op, mean_value) =>
      var ← param_operand input_node_map node "var" channel_count;
      match var with
      | inl warn => Ok (inl warn)
      | inr (var_op, var_value) =>
      beta ← param_operand input_node_map node "beta" channel_count;
      match beta with
      | inl warn => Ok (inl warn)
      | inr (beta_op, beta_value) =>
      gamma ← param_operand input_node_map node "gamma" channel_count;
      match gamma with
      | inl warn => Ok (inl warn)
      | inr (gamma_op, gamma_value) =>
          Ok (inr {| conv_op := conv; weights_op := w_op; weights := w;
                     mean_op := mean_op; mean_value := mean_value;
                     var_op := var_op; var_value := var_value;
                     beta_op := beta_op; beta_value := beta_value;
                     gamma_op := gamma_op; gamma_value := gamma_value |})
      end end end end
    else Ok (inl (NotConstant "conv" (name conv) (name w_op))).

(** *** Arithmetic on arrays *)

Fixpoint map_result {A B} (f : A -> result B) (l : list A)
    : result (list B) :=
  match l with
  | [] => Ok []
  | x :: r => y ← f x; ys ← map_result f r; Ok (y :: ys)
  end.

(** [np.vectorize(math.sqrt)(a)], which refuses an empty array. *)
Definition vectorize_sqrt (a : list F) : result (list F) :=
  match a with
  | [] => Raise (ValueError ["cannot call `vectorize` on size 0 inputs"])
  | _ => map_result math_sqrt a
  end.

(** [scale_value] of the loop body. *)
Definition compute_scale (scale_after : bool) (var gamma : list F)
    (epsilon : F) : result (list F) :=
  root ← vectorize_sqrt ((fun v => f_add v epsilon) <$> var);
  let inv := f_div f_one <$> root in
  if scale_after then Ok (zip_with f_mul inv gamma) else Ok inv.

(** [(-mean_value * scale_value) + beta_value] *)
Definition compute_offset (mean scale beta : list F) : list F :=
  zip_with f_add (zip_with f_mul (f_neg <$> mean) scale) beta.

(** The multi-index of the element at flat position [i] of a row-major
    array, last axis first. *)
Fixpoint unravel_rev (rev_shape : list nat) (i : nat) : list nat :=
  match rev_shape with
  | [] => []
  | s :: r => (i `mod` s) :: unravel_rev r (i / s)
  end.

(** [it.multi_index] *)
Definition multi_index (shp : list nat) (i : nat) : list nat :=
  rev (unravel_rev (rev shp) i).

(** The index into [scale_value] used at multi-index [mi]. *)
Definition scale_index (conv : NodeDef) (shp mi : list nat)
    : result nat :=
  if decide (op conv = "Conv2D") then index mi 3
  else
    channel_multiplier ← index shp 3;
    i2 ← index mi 2;
    i3 ← index mi 3;
    Ok (i2 * channel_multiplier + i3).

(** The [np.nditer] loops: every element is multiplied by the scale of
    its output channel.  The iterator refuses an empty array. *)
Definition scale_weights (conv : NodeDef) (w : ndarray)
    (scale : list F) : result (list F) :=
  match values w with
  | [] => Raise (ValueError
            ["Iteration of zero-sized operands is not enabled"])
  | _ =>
      map_result
        (fun '(i, x) =>
           k ← scale_index conv (shape w) (multi_index (shape w) i);
           current_scale ← index scale k;
           Ok (f_mul x current_scale))
        (imap pair (values w))
  end.

(** *** The ops that replace a folded match *)

Definition const_node (nm : string) (dtype_attr : AttrValue)
    (t : ndarray) : NodeDef :=
  {| name := nm; op := "Const"; input := [];
     attr := <["value" := AttrTensor t]> (<["dtype" := dtype_attr]> ∅) |}.

Definition make_scaled_weights_op (m : bn_match) (scaled : list F)
    : NodeDef :=
  const_node (name (weights_op m)) (get_attr (weights_op m) "dtype")
    {| dtype := dtype (weights m); shape := shape (weights m);
       values := scaled |}.

Definition make_offset_op (m : bn_match) (offset : list F) : NodeDef :=
  const_node (name (conv_op m) +:+ "_bn_offset")
    (get_attr (mean_op m) "dtype")
    {| dtype := dtype (mean_value m); shape := [length offset];
       values := offset |}.

Definition make_bias_add_op (node : NodeDef) (m : bn_match)
    (offset_op : NodeDef) : NodeDef :=
  {| name := name node; op := "BiasAdd";
     input := [name (conv_op m); name offset_op];
     attr := <["data_format" := get_attr (conv_op m) "data_format"]>
             (<["T" := get_attr (conv_op m) "T"]> ∅) |}.

(** Reading [node.attr[key]] creates the entry when it is absent (the
    field is a protobuf map of messages); the node is an object of the
    input graph and keeps the entry. *)
Definition touch_attr (key : string) (node : NodeDef) : NodeDef :=
  {| name := name node; op := op node; input := input node;
     attr := match attr node !! key with
             | Some _ => attr node
             | None => <[key := AttrUnset]> (attr node)
             end |}.

(** [new_conv_op.CopyFrom(conv_op)].  Building the [BiasAdd] reads
    [conv_op.attr["T"]] and [conv_op.attr["data_format"]] after the copy
    is taken, so the copy is the node as the graph holds it, unless the
    same convolution was folded before ([refolded]): then the earlier
    iteration has left both entries on it. *)
Definition copy_conv_op (refolded : bool) (conv : NodeDef) : NodeDef :=
  if refolded then touch_attr "data_format" (touch_attr "T" conv) else conv.

(** The state the scan loop carries. *)
Record scan_state : Type := {
  nodes_to_skip : gset string;
  new_ops : list NodeDef;
  log : list warning
}.

Definition initial_state : scan_state :=
  {| nodes_to_skip := ∅; new_ops := []; log := [] |}.

Definition warn (w : warning) (st : scan_state) : scan_state :=
  {| nodes_to_skip := nodes_to_skip st; new_ops := new_ops st;
     log := log st ++ [w] |}.

Definition matched_names (node : NodeDef) (m : bn_match) : gset string :=
  {[ name node; name (weights_op m); name (mean_op m); name (var_op m);
     name (beta_op m); name (gamma_op m); name (conv_op m) ]}.

(** The four ops created for a match, in the order they are appended
    to [new_ops]. *)
Definition folded_ops (node : NodeDef) (m : bn_match) (refolded : bool)
    : result (list NodeDef) :=
  epsilon_attr ← dict_get EPSILON_ATTR (op node);
  let variance_epsilon_value := attr_f (get_attr node epsilon_attr) in
  scale_value ← compute_scale (scale_after_normalization node)
                  (values (var_value m)) (values (gamma_value m))
                  variance_epsilon_value;
  let offset_value :=
    compute_offset (values (mean_value m)) scale_value
                   (values (beta_value m)) in
  scaled_weights ← scale_weights (conv_op m) (weights m) scale_value;
  let scaled_weights_op := make_scaled_weights_op m scaled_weights in
  let new_conv_op := copy_conv_op refolded (conv_op m) in
  let offset_op := make_offset_op m offset_value in
  let bias_add_op := make_bias_add_op node m offset_op in
  Ok [scaled_weights_op; new_conv_op; offset_op; bias_add_op].

(** The folding part of the loop body.  Names are unique and only a
    convolution enters [nodes_to_skip] under a convolution's name, so the
    convolution was folded before exactly when its name is there. *)
Definition fold_match (node : NodeDef) (m : bn_match) (st : scan_state)
    : result scan_state :=
  ops ← folded_ops node m
          (bool_decide (name (conv_op m) ∈ nodes_to_skip st));
  Ok {| nodes_to_skip := nodes_to_skip st ∪ matched_names node m;
        new_ops := new_ops st ++ ops;
        log := log st |}.

(** One iteration of the first loop over [input_graph.node]. *)
Definition scan_node (input_node_map : gmap string NodeDef)
    (node : NodeDef) (st : scan_state) : result scan_state :=
  if negb (is_batch_norm node) then Ok st
  else
    verdict ← match_candidate input_node_map node;
    match verdict with
    | inl w => Ok (warn w st)
    | inr m => fold_match node m st
    end.

Fixpoint scan_nodes (input_node_map : gmap string NodeDef)
    (nodes : list NodeDef) (st : scan_state) : result scan_state :=
  match nodes with
  | [] => Ok st
  | node :: rest =>
      st' ← scan_node input_node_map node st;
      scan_nodes input_node_map rest st'
  end.

(** The second loop: copy the nodes that are not skipped, then append
    the new ops. *)
Definition result_graph (input_graph : GraphDef) (st : scan_state)
    : GraphDef :=
  filter (fun node => name node ∉ nodes_to_skip st) input_graph
  ++ new_ops st.

(** Both loops of [do_transform], up to the final state. *)
Definition scan_graph (input_graph : GraphDef) : result scan_state :=
  input_node_map ← build_node_map input_graph ∅;
  scan_nodes input_node_map input_graph initial_state.

Definition do_transform (input_graph : GraphDef) : result GraphDef :=
  st ← scan_graph input_graph;
  Ok (result_graph input_graph st).

(** The warnings [do_transform] logs on the way. *)
Definition do_transform_log (input_graph : GraphDef)
    : result (list warning) :=
  st ← scan_graph input_graph;
  Ok (log st).

End graph.

End FoldBatchNorm.

(* ================================================================== *)
(** * graph_converter.py *)
(* ================================================================== *)

Module GraphConverter.
Import FoldBatchNorm.

(** ** [OutputGrabber] *)

Module OutputGrabber.

Definition escape_char : ascii := ascii_of_nat 8.

(** The bytes buffered in the capture pipe, oldest first, and the text
    captured so far.  Bytes are decoded one to one. *)
Record grabber : Type := {
  threaded : bool;
  capturedtext : string;
  pipe : string
}.

Definition read_size : nat := 10 * 1024.

(** [os.read(self.pipe_out, n)] while the write end is open: at most
    [n] of the buffered bytes; [None] when the pipe is empty (the call
    blocks). *)
Definition os_read (buffered : string) (n : nat)
    : option (string * string) :=
  match buffered with
  | EmptyString => None
  | _ => Some (String.substring 0 n buffered,
               String.substring n (String.length buffered - n) buffered)
  end.

(** [char[-1]] *)
Fixpoint last_char (s : string) : option ascii :=
  match s with
  | EmptyString => None
  | String c EmptyString => Some c
  | String _ r => last_char r
  end.

(** [not char or self.escape_char == char[-1]] *)
Definition stops (char : string) : bool :=
  match last_char char with
  | None => true
  | Some c => Ascii.eqb escape_char c
  end.

(** The loop of [readOutput] run against the bytes already in the pipe.
    [fuel] bounds the number of reads; [None] means the loop is still
    waiting for data. *)
Fixpoint readOutput (fuel : nat) (g : grabber) : option grabber :=
  match fuel with
  | 0 => None
  | S fuel' =>
      match os_read (pipe g) read_size with
      | None => None
      | Some (char, rest) =>
          if stops char then
            Some {| threaded := threaded g;
                    capturedtext := capturedtext g; pipe := rest |}
          else
            readOutput fuel'
              {| threaded := threaded g;
                 capturedtext := capturedtext g +:+ char;
                 pipe := rest |}
      end
  end.

(** The same loop run against the successive results of [os.read], as
    the reader thread sees them. *)
Fixpoint readOutput_reads (reads : list string) (captured : string)
    : option string :=
  match reads with
  | [] => None
  | char :: rest =>
      if stops char then Some captured
      else readOutput_reads rest (captured +:+ char)
  end.

Definition start (g : grabber) : grabber :=
  {| threaded := threaded g; capturedtext := EmptyString;
     pipe := pipe g |}.

(** Writing to the redirected stream puts the bytes into the pipe. *)
Definition write (data : string) (g : grabber) : grabber :=
  {| threaded := threaded g; capturedtext := capturedtext g;
     pipe := pipe g +:+ data |}.

(** [stop] without a reader thread: write the escape character, flush,
    and read the pipe from the calling thread. *)
Definition stop (fuel : nat) (g : grabber) : option grabber :=
  readOutput fuel (write (String escape_char EmptyString) g).

Definition new_grabber : grabber :=
  {| threaded := false; capturedtext := EmptyString;
     pipe := EmptyString |}.

(** [with OutputGrabber(stream) as out: stream.write(data)], then
    [out.capturedtext]. *)
Definition grab (fuel : nat) (data : string) : option string :=
  capturedtext <$> stop fuel (write data (start new_grabber)).

End OutputGrabber.

(** ** [GraphConverter] *)

Section converter.
Context {F : Type} `{Float F}.

#[local] Abbreviation GraphDef := (@GraphDef F).

(** The fields of a [GraphConverter] that [quantize] and
    [_insert_logging] touch, with the objects and files they reach:
    [heap] holds the [GraphDef] messages by identity, [files] the graph
    files written so far, [error_log] the [logging.error] records. *)
Record converter : Type := {
  debug : bool;
  _enable_kl_op_names : list string;
  _int8_logged_graph : string;
  _fp32_logged_graph : string;
  _tmp_graph_def : option nat;
  heap : gmap nat GraphDef;
  files : gmap string GraphDef;
  error_log : list string
}.

Definition set_heap (h : gmap nat GraphDef) (c : converter) : converter :=
  {| debug := debug c; _enable_kl_op_names := _enable_kl_op_names c;
     _int8_logged_graph := _int8_logged_graph c;
     _fp32_logged_graph := _fp32_logged_graph c;
     _tmp_graph_def := _tmp_graph_def c;
     heap := h; files := files c; error_log := error_log c |}.

Definition set_files (fs : gmap string GraphDef) (c : converter)
    : converter :=
  {| debug := debug c; _enable_kl_op_names := _enable_kl_op_names c;
     _int8_logged_graph := _int8_logged_graph c;
     _fp32_logged_graph := _fp32_logged_graph c;
     _tmp_graph_def := _tmp_graph_def c;
     heap := heap c; files := fs; error_log := error_log c |}.

Definition set_error_log (l : list string) (c : converter) : converter :=
  {| debug := debug c; _enable_kl_op_names := _enable_kl_op_names c;
     _int8_logged_graph := _int8_logged_graph c;
     _fp32_logged_graph := _fp32_logged_graph c;
     _tmp_graph_def := _tmp_graph_def c;
     heap := heap c; files := files c; error_log := l |}.

(** The passes and the engine that [quantize] calls and that live
    outside this module.  [InsertLogging ops message] is
    [InsertLogging(graph, ops=ops, message=message).do_transformation()]
    acting in place on the message it is given. *)
Record collaborators : Type := {
  _quantize_graph : stmt converter GraphDef;
  _get_fp32_print_node_names : stmt converter GraphDef;
  _generate_calibration_data : string -> bool -> stmt converter GraphDef;
  _freeze_requantization_ranges : stmt converter GraphDef;
  _fuse_requantize_with_fused_quantized_conv : stmt converter GraphDef;
  InsertLogging : list string -> string -> stmt GraphDef GraphDef;
  import_graph_def : GraphDef -> result GraphDef
}.

Context (env : collaborators).

(** The message [self._tmp_graph_def] refers to. *)
Definition tmp_graph (c : converter) : option GraphDef :=
  l ← _tmp_graph_def c; heap c !! l.

(** Run a statement on the message at [l], in place. *)
Definition on_message (l : nat) (body : stmt GraphDef GraphDef)
    : stmt converter GraphDef :=
  fun c =>
    match heap c !! l with
    | None => Throw TypeError c
    | Some g =>
        match body g with
        | Normal g' => Normal (set_heap (<[l := g']> (heap c)) c)
        | Return v g' => Normal (set_heap (<[l := g']> (heap c)) c)
        | Throw e g' => Throw e (set_heap (<[l := g']> (heap c)) c)
        end
    end.

(** [dst.CopyFrom(src)]: a deep copy of the contents. *)
Definition CopyFrom (dst : nat) (src : option nat)
    : stmt converter GraphDef :=
  fun c =>
    match src ≫= (fun l => heap c !! l) with
    | None => Throw TypeError c
    | Some g => Normal (set_heap (<[dst := g]> (heap c)) c)
    end.

(** [write_graph(graph, path)] *)
Definition write_graph (src : option nat) (path : string)
    : stmt converter GraphDef :=
  fun c =>
    match src ≫= (fun l => heap c !! l) with
    | None => Throw TypeError c
    | Some g => Normal (set_files (<[path := g]> (files c)) c)
    end.

Definition on_tmp_graph (body : stmt GraphDef GraphDef)
    : stmt converter GraphDef :=
  fun c =>
    match _tmp_graph_def c with
    | None => Throw TypeError c
    | Some l => on_message l body c
    end.

Definition _insert_logging : stmt converter GraphDef :=
  fun c =>
    (* int8_dynamic_range_graph_def = graph_pb2.GraphDef() *)
    let int8_dynamic_range_graph_def := fresh (dom (heap c)) in
    let c := set_heap (<[int8_dynamic_range_graph_def := []]> (heap c)) c in
    seq (CopyFrom int8_dynamic_range_graph_def (_tmp_graph_def c))
    (seq (on_tmp_graph
            (InsertLogging env
               ["RequantizationRange"; "RequantizationRangePerChannel"]
               "__requant_min_max:"))
    (seq (on_tmp_graph (InsertLogging env ["Min"] "__min:"))
    (seq (on_tmp_graph (InsertLogging env ["Max"] "__max:"))
    (seq (fun c => write_graph (_tmp_graph_def c) (_int8_logged_graph c) c)
         (fun c =>
            match _tmp_graph_def c with
            | None => Throw TypeError c
            | Some l => CopyFrom l (Some int8_dynamic_range_graph_def) c
            end))))) c.

(** [if gfile.Exists(path): os.remove(path)] *)
Definition _post_clean : stmt converter GraphDef :=
  fun c => Normal (set_files (delete (_int8_logged_graph c) (files c)) c).

Definition logging_error (msg : string) : stmt converter GraphDef :=
  fun c => Normal (set_error_log (error_log c ++ [msg]) c).

(** The [try] block of [quantize]. *)
Definition quantize_body : stmt converter GraphDef :=
  seq (_quantize_graph env)
  (seq (when (fun c => bool_decide (_enable_kl_op_names c ≠ []))
          (seq (_get_fp32_print_node_names env)
               (fun c => _generate_calibration_data env
                           (_fp32_logged_graph c) true c)))
  (seq _insert_logging
  (seq (fun c => _generate_calibration_data env
                   (_int8_logged_graph c) false c)
  (seq (_freeze_requantization_ranges env)
       (_fuse_requantize_with_fused_quantized_conv env))))).

(** The [except Exception as e] clause. *)
Definition quantize_handler (e : exn) : stmt converter GraphDef :=
  seq (logging_error ("Failed to quantize graph due to: " +:+ exn_str e))
      (raise (Wrapped e)).

(** The [finally] clause, which ends in [return graph]. *)
Definition quantize_finally : stmt converter GraphDef :=
  seq (when (fun c => negb (debug c)) _post_clean)
      (fun c =>
         match tmp_graph c with
         | None => Throw TypeError c
         | Some g =>
             match import_graph_def env g with
             | Ok graph => Return graph c
             | Raise e => Throw e c
             end
         end).

Definition quantize : stmt converter GraphDef :=
  try_except_finally quantize_body quantize_handler quantize_finally.

(** ** [_parse_output] *)

Definition semicolon : ascii := ";"%char.

(** The loop over [semicolon_index[:-1]]: one record per pair of
    neighbouring entries. *)
Fixpoint records_between (input_data : string) (semicolon_index : list nat)
    : list string :=
  match semicolon_index with
  | value :: ((next :: _) as rest) =>
      (strip (slice input_data value next) +:+ String newline EmptyString)
      :: records_between input_data rest
  | _ => []
  end.

(** Returns [output_data] as the calls to [append] leave it. *)
Definition _parse_output (input_data : string) (output_data : list string)
    : result (list string) :=
  if decide (count semicolon input_data `mod` 2 = 0) then
    let semicolon_index :=
      every_other (positions semicolon 0 input_data) in
    let output_data :=
      output_data ++ records_between input_data semicolon_index in
    match last semicolon_index with
    | None => Raise IndexError
    | Some final =>
        Ok (output_data ++
            [strip (slice_from input_data final)
             +:+ String newline EmptyString])
    end
  else Raise AssertionError.

End converter.

(** ** The rest of [GraphConverter] *)

(** *** [_check_tf_version] *)

Definition TF_SUPPORTED_MAX_VERSION : string := "2.1.0".
Definition TF_SUPPORTED_MIN_VERSION : string := "1.14.0".

Definition unsupported_version_error : exn :=
  ValueError
    ["Please install Intel" +:+ String (ascii_of_nat 174)
       (" Optimizations for TensorFlow"
        +:+ " or MKL enabled source build TensorFlow"
        +:+ " with version >=" +:+ TF_SUPPORTED_MIN_VERSION
        +:+ " and <=" +:+ TF_SUPPORTED_MAX_VERSION)].

(** [probe] is the outcome of the imports and of [IsMklEnabled()],
    [version] is [tf.__version__]; the state of the statements is the
    local [is_supported_version].  Strings compare as Python compares
    them, character by character. *)
Definition _check_tf_version (probe : result bool) (version : string)
    : result unit :=
  let body : stmt bool unit := fun is_supported_version =>
    match probe with
    | Raise e => Throw e is_supported_version
    | Ok mkl =>
        if mkl && String.leb TF_SUPPORTED_MIN_VERSION version
               && String.leb version TF_SUPPORTED_MAX_VERSION
        then Normal true
        else Normal is_supported_version
    end in
  let handler : exn -> stmt bool unit := fun e => raise (Wrapped e) in
  let final : stmt bool unit := fun is_supported_version =>
    if is_supported_version then Normal is_supported_version
    else Throw unsupported_version_error is_supported_version in
  match try_except_finally body handler final false with
  | Throw e _ => Raise e
  | _ => Ok tt
  end.

(** *** The sampling loop of [_inference] *)

(** [except tf.errors.OutOfRangeError] *)
Definition is_out_of_range (e : exn) : bool :=
  match e with
  | External tag => String.eqb tag "OutOfRangeError"
  | _ => false
  end.

(** [for content in self.data_loader: ...].  [run fed np_images] is
    [sess_graph.run(output_tensor, {input_tensor: np_images})] in a
    session that has processed the batches [fed] before.  The result
    lists the batches the session has processed, oldest first;
    [quantize_batch] counts them. *)
Fixpoint sampling_loop {B} (run : list B -> B -> result unit)
    (calib_iteration : Z) (data_loader : list (list B))
    (quantize_batch : Z) (fed : list B) : result (list B) :=
  match data_loader with
  | [] => Ok fed
  | content :: rest =>
      match (np_images ← index content 0;
             _ ← run fed np_images; Ok np_images) with
      | Ok np_images =>
          let quantize_batch := (quantize_batch + 1)%Z in
          if decide (quantize_batch = calib_iteration)
          then Ok (fed ++ [np_images])
          else sampling_loop run calib_iteration rest quantize_batch
                 (fed ++ [np_images])
      | Raise e => if is_out_of_range e then Ok fed else Raise e
      end
  end.

(** *** The keys of the KL calibration data

    [_get_fp32_print_node_names] registers one key per logged node;
    [_generate_calibration_data] finds the key and the node again in a
    captured line. *)

(** [s.startswith(p)] *)
Fixpoint startswith (p s : string) : bool :=
  match p with
  | EmptyString => true
  | String a p' =>
      match s with
      | String b s' => Ascii.eqb a b && startswith p' s'
      | EmptyString => false
      end
  end.

(** [s.split(sep)[0]] for a non-empty [sep]: the text before the first
    occurrence of [sep], all of [s] when there is none. *)
Fixpoint split_head (sep s : string) : string :=
  match s with
  | EmptyString => EmptyString
  | String c r =>
      if startswith sep s then EmptyString else String c (split_head sep r)
  end.

(** [s.rsplit(c)[-1]]: the text after the last occurrence of [c]. *)
Fixpoint rsplit_last (c : ascii) (s : string) : string :=
  match s with
  | EmptyString => EmptyString
  | String d r =>
      if contains c r then rsplit_last c r
      else if Ascii.eqb d c then r else s
  end.

(** [line[1:]] *)
Definition drop_first (line : string) : string :=
  match line with
  | String _ r => r
  | EmptyString => EmptyString
  end.

(** [';' + i + '__print__;__KL'] *)
Definition kl_key (i : string) : string := ";" +:+ i +:+ "__print__;__KL".

Section calibration.
Context {Data Histogram : Type}.
Context (get_all_fp32_data : string -> Data).
Context (get_tensor_histogram : Data -> Histogram).
Context (combine_histogram : Histogram -> Data -> Histogram).

(** The body of the loop over [output_data] that closes
    [_generate_calibration_data]; the state is [self._kl_op_dict]. *)
Definition record_line (enable_kl_algo : bool) (_kl_keys : list string)
    (_print_node_mapping : gmap string string) (line : string)
    (_kl_op_dict : gmap string Histogram)
    : result (gmap string Histogram) :=
  if enable_kl_algo
     && bool_decide (split_head ":" line ∈ _kl_keys) then
    let fp32_data := get_all_fp32_data (rsplit_last ":" line) in
    node ← dict_get _print_node_mapping
             (split_head "__print" (drop_first line));
    let key := node +:+ "_eightbit_requant_range" in
    match _kl_op_dict !! key with
    | None => Ok (<[key := get_tensor_histogram fp32_data]> _kl_op_dict)
    | Some h => Ok (<[key := combine_histogram h fp32_data]> _kl_op_dict)
    end
  else Ok _kl_op_dict.

(** [for line in output_data: ...] *)
Fixpoint record_lines (enable_kl_algo : bool) (_kl_keys : list string)
    (_print_node_mapping : gmap string string) (output_data : list string)
    (_kl_op_dict : gmap string Histogram)
    : result (gmap string Histogram) :=
  match output_data with
  | [] => Ok _kl_op_dict
  | line :: rest =>
      d ← record_line enable_kl_algo _kl_keys _print_node_mapping line
            _kl_op_dict;
      record_lines enable_kl_algo _kl_keys _print_node_mapping rest d
  end.

End calibration.

Section converter_rest.
Context {F : Type} `{Float F}.

#[local] Abbreviation GraphDef := (@GraphDef F).
#[local] Abbreviation converter := (@converter F).

Definition attr_type (a : @AttrValue F) : N :=
  match a with AttrType t => t | _ => 0%N end.

(** [_get_dtypes]: the list it returns, and the graph as the reads of
    [n.attr["dtype"]] leave it. *)
Definition _get_dtypes (inputs : list string) (in_graph_def : GraphDef)
    : list N * GraphDef :=
  ((fun n => attr_type (get_attr n "dtype"))
     <$> filter (fun n => name n ∈ inputs) in_graph_def,
   (fun n => if decide (name n ∈ inputs) then touch_attr "dtype" n else n)
     <$> in_graph_def).

Context (env : @collaborators F).

(** The [except] clause of [convert]. *)
Definition convert_handler (e : exn) : stmt converter GraphDef :=
  seq (logging_error ("Failed to optimize fp32 graph due to: " +:+ exn_str e))
      (raise (Wrapped e)).

(** [convert], over the optimization stage it starts with. *)
Definition convert (_optimize_frozen_fp32_graph : stmt converter GraphDef)
    : stmt converter GraphDef :=
  try_except_else _optimize_frozen_fp32_graph convert_handler (quantize env).

End converter_rest.

End GraphConverter.

(* ================================================================== *)
(** * Vocabulary of the specification *)
(* ================================================================== *)

Module Spec.
Import FoldBatchNorm.

Section vocabulary.
Context {F : Type} `{Float F}.

#[local] Abbreviation NodeDef := (@NodeDef F).
#[local] Abbreviation GraphDef := (@GraphDef F).

(** The name-to-node map of a graph. *)
Definition graph_map (g : GraphDef) : gmap string NodeDef :=
  list_to_map ((fun n => (name n, n)) <$> g).

(** Operand [role] of the candidate [node] is the node [p]. *)
Definition resolves (node_map : gmap string NodeDef) (node : NodeDef)
    (role : string) (p : NodeDef) : Prop :=
  ∃ ref, operand node role = Ok ref ∧ node_from_map node_map ref = Ok p.

(** The second input of the convolution is the node [w_op]. *)
Definition weights_operand (node_map : gmap string NodeDef)
    (conv w_op : NodeDef) : Prop :=
  ∃ ref, index (input conv) 1 = Ok ref
         ∧ node_from_map node_map ref = Ok w_op.

(** A normalization parameter that is a constant of shape
    [(channel_count,)]. *)
Definition param_passes (node_map : gmap string NodeDef)
    (node : NodeDef) (role : string) (channel_count : nat)
    (p : NodeDef) (v : ndarray) : Prop :=
  resolves node_map node (role +:+ "_op") p
  ∧ op p = "Const"
  ∧ values_from_const p = Ok v
  ∧ shape v = [channel_count].

(** A normalization parameter that is not a constant, or whose shape
    differs from the channel count. *)
Inductive param_fails (node_map : gmap string NodeDef) (node : NodeDef)
    (role : string) (channel_count : nat) : warning -> Prop :=
| param_not_constant p :
    resolves node_map node (role +:+ "_op") p ->
    op p ≠ "Const" ->
    param_fails node_map node role channel_count
      (NotConstant role (name node) (name p))
| param_incorrect_shape p v :
    resolves node_map node (role +:+ "_op") p ->
    op p = "Const" ->
    values_from_const p = Ok v ->
    shape v ≠ [channel_count] ->
    param_fails node_map node role channel_count
      (IncorrectShape role (shape v) [channel_count] (name node)).

(** The parameters in the order they are validated. *)
Definition checked_roles : list string := ["mean"; "var"; "beta"; "gamma"].

(** The candidate [node] fails a validation check, which is reported
    as [w]: the preceding op is not a convolution, or the weights or a
    parameter are not constants, or a parameter has the wrong shape.
    The checks before the failing one pass. *)
Inductive validation_failure (node_map : gmap string NodeDef)
    (node : NodeDef) : warning -> Prop :=
| not_convolution conv :
    resolves node_map node "conv_op" conv ->
    is_convolution conv = false ->
    validation_failure node_map node (NotConvolution (name node))
| weights_not_constant conv w_op :
    resolves node_map node "conv_op" conv ->
    is_convolution conv = true ->
    weights_operand node_map conv w_op ->
    op w_op ≠ "Const" ->
    validation_failure node_map node
      (NotConstant "conv" (name conv) (name w_op))
| parameter_rejected conv w_op w channel_count i role warn :
    resolves node_map node "conv_op" conv ->
    is_convolution conv = true ->
    weights_operand node_map conv w_op ->
    op w_op = "Const" ->
    values_from_const w_op = Ok w ->
    channel_count_of conv w = Ok channel_count ->
    checked_roles !! i = Some role ->
    (∀ j r, j < i -> checked_roles !! j = Some r ->
            ∃ p v, param_passes node_map node r channel_count p v) ->
    param_fails node_map node role channel_count warn ->
    validation_failure node_map node warn.

(** The candidate [node] passes every check, with operands [m]. *)
Definition valid_match (node_map : gmap string NodeDef) (node : NodeDef)
    (m : bn_match) : Prop :=
  resolves node_map node "conv_op" (conv_op m)
  ∧ is_convolution (conv_op m) = true
  ∧ weights_operand node_map (conv_op m) (weights_op m)
  ∧ op (weights_op m) = "Const"
  ∧ values_from_const (weights_op m) = Ok (weights m)
  ∧ ∃ channel_count,
      channel_count_of (conv_op m) (weights m) = Ok channel_count
      ∧ param_passes node_map node "mean" channel_count
          (mean_op m) (mean_value m)
      ∧ param_passes node_map node "var" channel_count
          (var_op m) (var_value m)
      ∧ param_passes node_map node "beta" channel_count
          (beta_op m) (beta_value m)
      ∧ param_passes node_map node "gamma" channel_count
          (gamma_op m) (gamma_value m).

(** Position of the element at multi-index [(i0, i1, i2, i3)] of a
    row-major array of shape [(s0, s1, s2, s3)]. *)
Definition flat_index (s1 s2 s3 i0 i1 i2 i3 : nat) : nat :=
  ((i0 * s1 + i1) * s2 + i2) * s3 + i3.

(** The output channel of the element at that multi-index: the last
    axis for [Conv2D]; input channel times multiplier plus multiplier
    index for [DepthwiseConv2dNative]. *)
Definition output_channel (conv : NodeDef) (s3 i2 i3 : nat) : nat :=
  if decide (op conv = "Conv2D") then i3 else i2 * s3 + i3.

(** The number of output channels of a convolution whose weights
    have shape [(_, _, s2, s3)]. *)
Definition channels (conv : NodeDef) (s2 s3 : nat) : nat :=
  if decide (op conv = "Conv2D") then s3 else s2 * s3.

(** The epsilon of a batch-norm node, under the attribute name of its
    variant. *)
Definition variance_epsilon (node : NodeDef) : F :=
  attr_f (get_attr node
            (if decide (op node = "BatchNormWithGlobalNormalization")
             then "variance_epsilon" else "epsilon")).

(** Whether the scale includes [gamma]: always for [FusedBatchNorm],
    and for [BatchNormWithGlobalNormalization] when its
    scale-after-normalization flag is set. *)
Definition gamma_applied (node : NodeDef) : bool :=
  if decide (op node = "BatchNormWithGlobalNormalization")
  then attr_b (get_attr node "scale_after_normalization")
  else true.

(** The standard model of floating-point arithmetic.  [to_R] reads the
    value of a finite number and [u] is the unit roundoff (of the
    coarsest format involved, when formats are mixed): one and negation
    are exact, and every other operation returns the exact result with a
    relative error of at most [u].  Binary floating-point arithmetic with
    rounding to nearest meets it as long as no operation overflows or
    underflows; infinities and NaN are outside the model. *)
Definition standard_model (to_R : F -> R) (u : R) : Prop :=
  (0 <= u < 1)%R
  ∧ to_R f_one = 1%R
  ∧ (∀ x, to_R (f_neg x) = (- to_R x)%R)
  ∧ (∀ x y, ∃ d, (Rabs d <= u)%R
             ∧ to_R (f_add x y) = ((to_R x + to_R y) * (1 + d))%R)
  ∧ (∀ x y, ∃ d, (Rabs d <= u)%R
             ∧ to_R (f_mul x y) = ((to_R x * to_R y) * (1 + d))%R)
  ∧ (∀ x y, to_R y ≠ 0%R →
            ∃ d, (Rabs d <= u)%R
                 ∧ to_R (f_div x y) = ((to_R x / to_R y) * (1 + d))%R)
  ∧ (∀ x r, math_sqrt x = Ok r →
            (0 <= to_R x)%R
            ∧ ∃ d, (Rabs d <= u)%R
                   ∧ to_R r = (sqrt (to_R x) * (1 + d))%R).

(** The relative tolerance after [k] rounded operations:
    [((1 + u) / (1 - u)) ^ k - 1], which is about [2 k u].  For single
    precision and six operations it stays below [1e-6]. *)
Definition growth (u : R) : R := ((1 + u) / (1 - u))%R.
Definition tolerance (u : R) (k : nat) : R := (growth u ^ k - 1)%R.

(** [x] is [y] times a factor that [k] rounded operations can produce. *)
Definition rel (u : R) (k : nat) (x y : R) : Prop :=
  ∃ rho, x = (y * rho)%R
         ∧ (/ growth u ^ k <= rho <= growth u ^ k)%R.

(** [x] agrees with [y] to the tolerance of [k] rounded operations. *)
Definition agrees (u : R) (k : nat) (x y : R) : Prop :=
  (Rabs (x - y) <= tolerance u k * Rabs y)%R.

(** A collaborator call that comes back, leaving the message it works
    on as [g']. *)
Definition comes_back (o : completion GraphDef GraphDef) (g' : GraphDef)
    : Prop :=
  match o with
  | Normal s | Return _ s => s = g'
  | Throw _ _ => False
  end.

End vocabulary.
End Spec.

(* ================================================================== *)
(** * Example graphs *)
(* ================================================================== *)

Module Examples.
Import FoldBatchNorm GraphConverter.

#[local] Abbreviation Node := (@NodeDef float).
#[local] Abbreviation Conv := (@converter float).

Definition DT_FLOAT : N := 1.

Definition tensor (shp : list nat) (vs : list float) : @ndarray float :=
  {| dtype := DT_FLOAT; shape := shp; values := vs |}.

Definition constant (nm : string) (shp : list nat) (vs : list float) : Node :=
  {| name := nm; op := "Const"; input := [];
     attr := <["value" := AttrTensor (tensor shp vs)]>
             (<["dtype" := AttrType DT_FLOAT]> ∅) |}.

Definition simple (nm kind : string) (inputs : list string) : Node :=
  {| name := nm; op := kind; input := inputs; attr := ∅ |}.

Definition x_node : Node := simple "x" "Placeholder" [].
Definition w_node : Node := constant "w" [1; 1; 1; 2] [1%float; 2%float].
Definition conv_node : Node :=
  {| name := "conv"; op := "Conv2D"; input := ["x"; "w"];
     attr := <["T" := AttrType DT_FLOAT]> ∅ |}.
Definition gamma_node : Node := constant "gamma" [2] [2%float; 3%float].
Definition beta_node : Node := constant "beta" [2] [1%float; 1%float].
Definition mean_node : Node := constant "mean" [2] [4%float; 5%float].
Definition var_node : Node := constant "var" [2] [4%float; 9%float].
Definition bn_node : Node :=
  {| name := "bn"; op := "FusedBatchNorm";
     input := ["conv"; "gamma"; "beta"; "mean"; "var"];
     attr := <["epsilon" := AttrF 0%float]> ∅ |}.
Definition relu_node : Node := simple "relu" "Relu" ["bn"].

(** A convolution followed by a batch norm over constants. *)
Definition folding_graph : list Node :=
  [x_node; w_node; conv_node; gamma_node; beta_node; mean_node; var_node;
   bn_node; relu_node].

Definition folding_match : @bn_match float :=
  {| conv_op := conv_node; weights_op := w_node;
     weights := tensor [1; 1; 1; 2] [1%float; 2%float];
     mean_op := mean_node; mean_value := tensor [2] [4%float; 5%float];
     var_op := var_node; var_value := tensor [2] [4%float; 9%float];
     beta_op := beta_node; beta_value := tensor [2] [1%float; 1%float];
     gamma_op := gamma_node; gamma_value := tensor [2] [2%float; 3%float] |}.

(** The same graph after the batch norm has been folded: the scale is
    [(1, 1)] and the offset [(-3, -4)]. *)
Definition folded_graph : list Node :=
  [x_node; relu_node;
   constant "w" [1; 1; 1; 2] [1%float; 2%float];
   conv_node;
   constant "conv_bn_offset" [2] [(-3)%float; (-4)%float];
   {| name := "bn"; op := "BiasAdd"; input := ["conv"; "conv_bn_offset"];
      attr := <["data_format" := AttrUnset]>
              (<["T" := AttrType DT_FLOAT]> ∅) |}].

(** A batch norm that follows a pooling op, not a convolution. *)
Definition pool_node : Node := simple "pool" "MaxPool" ["x"].
Definition pooled_bn_node : Node :=
  {| name := "bn"; op := "FusedBatchNorm";
     input := ["pool"; "gamma"; "beta"; "mean"; "var"];
     attr := <["epsilon" := AttrF 0%float]> ∅ |}.
Definition pooled_graph : list Node :=
  [x_node; pool_node; gamma_node; beta_node; mean_node; var_node;
   pooled_bn_node; relu_node].

(** The first graph with a second node named [w]. *)
Definition duplicate_graph : list Node :=
  folding_graph ++ [constant "w" [1] [1%float]].

(** An input reference with a line feed inside the node name. *)
Definition line_feed_reference : string :=
  "x" +:+ String newline "y:0".
Definition line_feed_name : string := "x" +:+ String newline "y".

(** A stand-in for the logging pass: it appends one [Print] node that
    reads the ops it was asked to log. *)
Definition append_print (ops : list string) (message : string)
    : stmt (list Node) (list Node) :=
  fun g => Normal (g ++ [simple message "Print" ops]).

(** Collaborators that all succeed. *)
Definition working_env : @collaborators float :=
  {| _quantize_graph := skip;
     _get_fp32_print_node_names := skip;
     _generate_calibration_data := fun _ _ => skip;
     _freeze_requantization_ranges := skip;
     _fuse_requantize_with_fused_quantized_conv := skip;
     InsertLogging := append_print;
     import_graph_def := Ok |}.

(** The same, except that the quantization pass raises. *)
Definition failing_env : @collaborators float :=
  {| _quantize_graph := raise (External "InvalidArgumentError");
     _get_fp32_print_node_names := skip;
     _generate_calibration_data := fun _ _ => skip;
     _freeze_requantization_ranges := skip;
     _fuse_requantize_with_fused_quantized_conv := skip;
     InsertLogging := append_print;
     import_graph_def := Ok |}.

(** A converter that holds the optimized fp32 graph and a logged-graph
    file left on disk. *)
Definition ready_converter : Conv :=
  {| debug := false;
     _enable_kl_op_names := [];
     _int8_logged_graph := "out/int8_logged_graph.pb";
     _fp32_logged_graph := "out/fp32_logged_graph.pb";
     _tmp_graph_def := Some 0;
     heap := {[ 0 := folded_graph ]};
     files := {[ "out/int8_logged_graph.pb" := folded_graph ]};
     error_log := [] |}.

(** The converter after the failed [quantize] call. *)
Definition failed_converter : Conv :=
  {| debug := false;
     _enable_kl_op_names := [];
     _int8_logged_graph := "out/int8_logged_graph.pb";
     _fp32_logged_graph := "out/fp32_logged_graph.pb";
     _tmp_graph_def := Some 0;
     heap := {[ 0 := folded_graph ]};
     files := ∅;
     error_log :=
       ["Failed to quantize graph due to: InvalidArgumentError"] |}.

Definition logged_graph : list Node :=
  folded_graph ++
  [simple "__requant_min_max:" "Print"
     ["RequantizationRange"; "RequantizationRangePerChannel"];
   simple "__min:" "Print" ["Min"];
   simple "__max:" "Print" ["Max"]].

(** Two convolutions that read the same weight constant, each followed
    by its own batch norm. *)
Definition conv2_node : Node :=
  {| name := "conv2"; op := "Conv2D"; input := ["x"; "w"];
     attr := <["T" := AttrType DT_FLOAT]> ∅ |}.
Definition gamma2_node : Node := constant "gamma2" [2] [4%float; 6%float].
Definition bn2_node : Node :=
  {| name := "bn2"; op := "FusedBatchNorm";
     input := ["conv2"; "gamma2"; "beta"; "mean"; "var"];
     attr := <["epsilon" := AttrF 0%float]> ∅ |}.
Definition shared_weights_graph : list Node :=
  [x_node; w_node; conv_node; conv2_node; gamma_node; gamma2_node; beta_node;
   mean_node; var_node; bn_node; bn2_node].

(** What the pass returns for it: both rescaled weight constants are
    named [w]. *)
Definition shared_weights_folded : list Node :=
  [x_node;
   constant "w" [1; 1; 1; 2] [1%float; 2%float];
   conv_node;
   constant "conv_bn_offset" [2] [(-3)%float; (-4)%float];
   {| name := "bn"; op := "BiasAdd"; input := ["conv"; "conv_bn_offset"];
      attr := <["data_format" := AttrUnset]>
              (<["T" := AttrType DT_FLOAT]> ∅) |};
   constant "w" [1; 1; 1; 2] [2%float; 4%float];
   conv2_node;
   constant "conv2_bn_offset" [2] [(-7)%float; (-9)%float];
   {| name := "bn2"; op := "BiasAdd"; input := ["conv2"; "conv2_bn_offset"];
      attr := <["data_format" := AttrUnset]>
              (<["T" := AttrType DT_FLOAT]> ∅) |}].
(** A graph whose only node carries a port suffix in its own name. *)
Definition ported_node : Node := simple "x:0" "Placeholder" [].
Definition ported_graph : list Node := [ported_node].

(** A batch norm whose first operand names a node that is not there. *)
Definition dangling_graph : list Node :=
  [gamma_node; beta_node; mean_node; var_node; bn_node].

(** Collaborators whose logging pass fails after it has added a node. *)
Definition broken_logging_env : @collaborators float :=
  {| _quantize_graph := skip;
     _get_fp32_print_node_names := skip;
     _generate_calibration_data := fun _ _ => skip;
     _freeze_requantization_ranges := skip;
     _fuse_requantize_with_fused_quantized_conv := skip;
     InsertLogging := fun ops message g =>
       Throw (External "InvalidArgumentError")
             (g ++ [simple message "Print" ops]);
     import_graph_def := Ok |}.

(** Three batches of images with their labels, and a session that
    accepts every batch. *)
Definition three_batches : list (list nat) := [[1; 10]; [2; 20]; [3; 30]].
Definition accepting_session : list nat -> nat -> result unit :=
  fun _ _ => Ok tt.

(** A session whose dataset runs out after two batches. *)
Definition exhausted_session : list nat -> nat -> result unit :=
  fun fed _ =>
    if decide (length fed = 2) then Raise (External "OutOfRangeError")
    else Ok tt.

(** An optimization stage that fails. *)
Definition failing_optimize : stmt Conv (list Node) :=
  raise (External "InvalidArgumentError").

(** Two records as the [Print] ops of the logged graph emit them. *)
Definition captured_text : string :=
  ";conv__print__;__KL:[1 2];pool__print__;__KL:[3]".

End Examples.

(** The same kind of graph over the real numbers. *)
Module RealExamples.
Import FoldBatchNorm.
Local Open Scope R_scope.

#[local] Abbreviation RNode := (@NodeDef R).

Definition real_tensor (shp : list nat) (vs : list R) : @ndarray R :=
  {| dtype := 1%N; shape := shp; values := vs |}.

Definition real_constant (nm : string) (shp : list nat) (vs : list R)
    : RNode :=
  {| name := nm; op := "Const"; input := [];
     attr := <["value" := AttrTensor (real_tensor shp vs)]>
             (<["dtype" := AttrType 1%N]> ∅) |}.

Definition real_w : RNode := real_constant "w" [1; 1; 1; 1]%nat [3].
Definition real_conv : RNode :=
  {| name := "conv"; op := "Conv2D"; input := ["x"; "w"]; attr := ∅ |}.
Definition real_gamma : RNode := real_constant "gamma" [1]%nat [2].
Definition real_beta : RNode := real_constant "beta" [1]%nat [1].
Definition real_mean : RNode := real_constant "mean" [1]%nat [5].
Definition real_var : RNode := real_constant "var" [1]%nat [4].
Definition real_bn : RNode :=
  {| name := "bn"; op := "FusedBatchNorm";
     input := ["conv"; "gamma"; "beta"; "mean"; "var"];
     attr := <["epsilon" := AttrF 0]> ∅ |}.

(** One convolution and its batch norm, over the real numbers. *)
Definition real_graph : list RNode :=
  [real_w; real_conv; real_gamma; real_beta; real_mean; real_var; real_bn].

Definition real_match : @bn_match R :=
  {| conv_op := real_conv; weights_op := real_w;
     weights := real_tensor [1; 1; 1; 1]%nat [3];
     mean_op := real_mean; mean_value := real_tensor [1]%nat [5];
     var_op := real_var; var_value := real_tensor [1]%nat [4];
     beta_op := real_beta; beta_value := real_tensor [1]%nat [1];
     gamma_op := real_gamma; gamma_value := real_tensor [1]%nat [2] |}.

(** The scale as the pass computes it. *)
Definition real_scale : R := 1 / sqrt (4 + 0) * 2.

Definition real_folded_graph : list RNode :=
  [real_constant "w" [1; 1; 1; 1]%nat [3 * real_scale];
   real_conv;
   real_constant "conv_bn_offset" [1]%nat [- 5 * real_scale + 1];
   {| name := "bn"; op := "BiasAdd"; input := ["conv"; "conv_bn_offset"];
      attr := <["data_format" := AttrUnset]> (<["T" := AttrUnset]> ∅) |}].

End RealExamples.

(* ================================================================== *)
(** * Properties of the batch-norm folding pass *)
(* ================================================================== *)

Import FoldBatchNorm Spec.

Section node_names.

Lemma is_digit_not_colon c : is_digit c = true → Ascii.eqb c ":"%char = false.
Proof.
  intros Hd. destruct (Ascii.eqb_spec c ":"%char) as [->|]; [|done].
  by vm_compute in Hd.
Qed.

Lemma is_digit_not_newline c : is_digit c = true → Ascii.eqb c newline = false.
Proof.
  intros Hd. destruct (Ascii.eqb_spec c newline) as [->|]; [|done].
  by vm_compute in Hd.
Qed.

Lemma all_digits_to_end N : all_digits N = true → digits_to_end N = true.
Proof.
  induction N as [|c N IH]; simpl; [done|].
  intros [Hc HN]%andb_prop. by rewrite Hc, IH.
Qed.

Lemma digits_to_end_all N :
  contains newline N = false → digits_to_end N = true → all_digits N = true.
Proof.
  induction N as [|c N IH]; simpl; [done|].
  intros [Hc HN]%orb_false_elim. destruct (is_digit c); simpl.
  - auto.
  - rewrite Hc. done.
Qed.

Lemma group_at_digits N : all_digits N = true → group_at N = None.
Proof.
  induction N as [|c N IH]; simpl; [done|].
  intros [Hc HN]%andb_prop. rewrite (IH HN).
  rewrite (is_digit_not_colon _ Hc).
  destruct (Ascii.eqb c newline); by destruct N.
Qed.

Lemma group_at_cons c r :
  group_at (String c r) =
  match (if Ascii.eqb c newline then None else group_at r) with
  | Some g => Some (String c g)
  | None => if slot_suffix (String c r) then Some EmptyString else None
  end.
Proof. done. Qed.

Lemma group_at_slot base N :
  contains newline base = false → N ≠ EmptyString → all_digits N = true →
  group_at (base +:+ ":" +:+ N) = Some base.
Proof.
  intros Hnl HN Hd. induction base as [|c base IH].
  - destruct N as [|d N]; [done|]. simpl in Hd. apply andb_prop in Hd as [Hd HN'].
    change (EmptyString +:+ ":" +:+ String d N) with (String ":" (String d N)).
    rewrite group_at_cons.
    replace (Ascii.eqb ":" newline) with false by done.
    rewrite (group_at_digits (String d N)) by (simpl; by rewrite Hd, HN').
    unfold slot_suffix. rewrite Hd, (all_digits_to_end _ HN'). done.
  - simpl in Hnl. apply orb_false_elim in Hnl as [Hc Hb].
    change (String c base +:+ ":" +:+ N) with (String c (base +:+ ":" +:+ N)).
    rewrite group_at_cons, Hc, (IH Hb). done.
Qed.

Lemma slot_suffix_inv t :
  contains newline t = false → slot_suffix t = true →
  ∃ N, N ≠ EmptyString ∧ all_digits N = true ∧ t = ":" +:+ N.
Proof.
  destruct t as [|c [|d r]]; simpl; try done.
  intros Hnl Hs. apply andb_prop in Hs as [[Hc Hd]%andb_prop Hr].
  apply Ascii.eqb_eq in Hc as ->.
  apply orb_false_elim in Hnl as [_ [Hdn Hrn]%orb_false_elim].
  exists (String d r). split; [done|]. split; [|done].
  simpl. rewrite Hd. by apply digits_to_end_all.
Qed.

Lemma group_at_inv t g :
  contains newline t = false → group_at t = Some g →
  ∃ N, N ≠ EmptyString ∧ all_digits N = true ∧ t = g +:+ ":" +:+ N.
Proof.
  revert g. induction t as [|c t IH]; intros g Hnl; [done|].
  rewrite group_at_cons. pose proof Hnl as Hnl'. simpl in Hnl'.
  apply orb_false_elim in Hnl' as [Hc Ht]. rewrite Hc.
  destruct (group_at t) as [g'|] eqn:Hg.
  - intros [= <-]. destruct (IH g' Ht eq_refl) as (N & ? & ? & ->).
    by exists N.
  - destruct (slot_suffix (String c t)) eqn:Hs; [|done].
    intros [= <-]. by apply slot_suffix_inv.
Qed.

Lemma re_search_inv t g :
  contains newline t = false → re_search t = Some g →
  ∃ pre N, N ≠ EmptyString ∧ all_digits N = true
           ∧ t = pre +:+ g +:+ ":" +:+ N.
Proof.
  induction t as [|c t IH]; intros Hnl.
  - simpl. done.
  - cbn [re_search]. destruct (group_at (String c t)) as [g'|] eqn:Hg.
    + intros [= <-]. destruct (group_at_inv _ _ Hnl Hg) as (N & ? & ? & ->).
      by exists EmptyString, N.
    + simpl in Hnl. apply orb_false_elim in Hnl as [_ Ht].
      intros Hs. destruct (IH Ht Hs) as (pre & N & ? & ? & ->).
      by exists (String c pre), N.
Qed.

Lemma re_search_group t g : group_at t = Some g → re_search t = Some g.
Proof. destruct t; simpl; [done|]. by intros ->. Qed.

Lemma contains_strip_marker s :
  contains newline s = false → contains newline (strip_marker s) = false.
Proof.
  destruct s as [|c s]; [done|]. unfold strip_marker.
  destruct (Ascii.eqb_spec c "^"%char) as [->|Hne].
  - simpl. done.
  - intros Hs. 
    destruct c as [[] [] [] [] [] [] [] []]; try done; simpl in *; done.
Qed.

Lemma contains_app c s t :
  contains c (s +:+ t) = contains c s || contains c t.
Proof. induction s as [|d s IH]; simpl; [done|]. by rewrite IH, orb_assoc. Qed.

Lemma app_assoc_str (a b c : string) : (a +:+ b) +:+ c = a +:+ b +:+ c.
Proof.
  induction a as [|x a IH]; [done|].
  change (String x ((a +:+ b) +:+ c) = String x (a +:+ b +:+ c)).
  by rewrite IH.
Qed.


End node_names.

Section validation.
Context {F : Type} `{Float F}.
Implicit Types (node conv p : @NodeDef F) (node_map : gmap string (@NodeDef F)).

Lemma bind_ok {A B} (r : result A) (k : A -> result B) a :
  r = Ok a → (r ≫= k) = k a.
Proof. by intros ->. Qed.

Lemma param_operand_passes node_map node role cc p v :
  param_passes node_map node role cc p v →
  param_operand node_map node role cc = Ok (inr (p, v)).
Proof.
  intros ((ref & Href & Hp) & Hop & Hv & Hshape). unfold param_operand.
  rewrite Href. cbn. rewrite Hp. cbn.
  rewrite decide_True by done. rewrite Hv. cbn.
  by rewrite decide_True.
Qed.

Lemma param_operand_fails node_map node role cc w :
  param_fails node_map node role cc w →
  param_operand node_map node role cc = Ok (inl w).
Proof.
  intros [p (ref & Href & Hp) Hop | p v (ref & Href & Hp) Hop Hv Hshape];
    unfold param_operand; rewrite Href; cbn; rewrite Hp; cbn.
  - by rewrite decide_False.
  - rewrite decide_True by done. rewrite Hv. cbn. by rewrite decide_False.
Qed.

Lemma match_candidate_failure node_map node w :
  validation_failure node_map node w →
  match_candidate node_map node = Ok (inl w).
Proof.
  intros [conv (ref & Href & Hconv) Hkind
         | conv w_op (ref & Href & Hconv) Hkind (wref & Hwref & Hw) Hop
         | conv w_op wt cc i role warn (ref & Href & Hconv) Hkind
             (wref & Hwref & Hw) Hop Hwt Hcc Hrole Hbefore Hfail];
    unfold match_candidate; rewrite Href; cbn; rewrite Hconv; cbn;
    rewrite Hkind; cbn; [done| |].
  - rewrite Hwref. cbn. rewrite Hw. cbn. by rewrite decide_False.
  - rewrite Hwref. cbn. rewrite Hw. cbn. rewrite decide_True by done.
    rewrite Hwt. cbn. rewrite Hcc. cbn.
    assert (∀ j r, j < i → checked_roles !! j = Some r →
              ∃ p v, param_operand node_map node r cc = Ok (inr (p, v)))
      as Hpass.
    { intros j r Hj Hr. destruct (Hbefore j r Hj Hr) as (p & v & Hp).
      exists p, v. by apply param_operand_passes. }
    apply param_operand_fails in Hfail.
    destruct i as [|[|[|[|i]]]]; simplify_eq/=.
    + by rewrite Hfail.
    + destruct (Hpass 0 "mean") as (? & ? & ->); [lia|done|]. cbn.
      by rewrite Hfail.
    + destruct (Hpass 0 "mean") as (? & ? & ->); [lia|done|]. cbn.
      destruct (Hpass 1 "var") as (? & ? & ->); [lia|done|]. cbn.
      by rewrite Hfail.
    + destruct (Hpass 0 "mean") as (? & ? & ->); [lia|done|]. cbn.
      destruct (Hpass 1 "var") as (? & ? & ->); [lia|done|]. cbn.
      destruct (Hpass 2 "beta") as (? & ? & ->); [lia|done|]. cbn.
      by rewrite Hfail.
Qed.

Lemma match_candidate_valid node_map node m :
  valid_match node_map node m → match_candidate node_map node = Ok (inr m).
Proof.
  intros ((ref & Href & Hconv) & Hkind & (wref & Hwref & Hw) & Hop & Hwt
          & cc & Hcc & Hmean & Hvar & Hbeta & Hgamma).
  unfold match_candidate. rewrite Href. cbn. rewrite Hconv. cbn.
  rewrite Hkind. cbn. rewrite Hwref. cbn. rewrite Hw. cbn.
  rewrite decide_True by done. rewrite Hwt. cbn. rewrite Hcc. cbn.
  rewrite (param_operand_passes _ _ _ _ _ _ Hmean). cbn.
  rewrite (param_operand_passes _ _ _ _ _ _ Hvar). cbn.
  rewrite (param_operand_passes _ _ _ _ _ _ Hbeta). cbn.
  rewrite (param_operand_passes _ _ _ _ _ _ Hgamma). cbn.
  by destruct m.
Qed.

Lemma param_operand_inv node_map node role cc r :
  param_operand node_map node role cc = Ok r →
  match r with
  | inl w => param_fails node_map node role cc w
  | inr (p, v) => param_passes node_map node role cc p v
  end.
Proof.
  unfold param_operand.
  destruct (operand node (role +:+ "_op")) as [ref|?] eqn:Href; cbn; [|done].
  destruct (node_from_map node_map ref) as [p|?] eqn:Hp; cbn; [|done].
  assert (resolves node_map node (role +:+ "_op") p) as Hres by by exists ref.
  case_decide as Hop.
  - destruct (values_from_const p) as [v|?] eqn:Hv; cbn; [|done].
    case_decide as Hshape; intros [= <-].
    + done.
    + by apply (param_incorrect_shape _ _ _ _ p v).
  - intros [= <-]. by apply param_not_constant.
Qed.

(** The candidates that the scan skips are exactly those at which a
    validation check fails. *)
Lemma match_candidate_skip_inv node_map node w :
  match_candidate node_map node = Ok (inl w) →
  validation_failure node_map node w.
Proof.
  unfold match_candidate.
  destruct (operand node "conv_op") as [ref|?] eqn:Href; cbn; [|done].
  destruct (node_from_map node_map ref) as [conv|?] eqn:Hconv; cbn; [|done].
  assert (resolves node_map node "conv_op" conv) as Hres by by exists ref.
  destruct (is_convolution conv) eqn:Hkind; cbn.
  2: { intros [= <-]. by apply (not_convolution _ _ conv). }
  destruct (index (input conv) 1) as [wref|?] eqn:Hwref; cbn; [|done].
  destruct (node_from_map node_map wref) as [w_op|?] eqn:Hw; cbn; [|done].
  assert (weights_operand node_map conv w_op) as Hwres by by exists wref.
  case_decide as Hop.
  2: { intros [= <-]. by apply weights_not_constant. }
  destruct (values_from_const w_op) as [wt|?] eqn:Hwt; cbn; [|done].
  destruct (channel_count_of conv wt) as [cc|?] eqn:Hcc; cbn; [|done].
  assert (∀ i role warn,
            checked_roles !! i = Some role →
            (∀ j r, j < i → checked_roles !! j = Some r →
                    ∃ p v, param_passes node_map node r cc p v) →
            param_fails node_map node role cc warn →
            validation_failure node_map node warn) as Hrej.
  { intros. by eapply (parameter_rejected _ _ conv w_op wt cc). }
  destruct (param_operand node_map node "mean" cc) as [[?|[p1 v1]]|?] eqn:H1;
    cbn; [| |done]; apply param_operand_inv in H1.
  { intros [= <-]. apply (Hrej 0 "mean"); [done| |done]. intros; lia. }
  destruct (param_operand node_map node "var" cc) as [[?|[p2 v2]]|?] eqn:H2;
    cbn; [| |done]; apply param_operand_inv in H2.
  { intros [= <-]. apply (Hrej 1 "var"); [done| |done].
    intros [|?] r ? ?; simplify_eq/=; [by eauto|lia]. }
  destruct (param_operand node_map node "beta" cc) as [[?|[p3 v3]]|?] eqn:H3;
    cbn; [| |done]; apply param_operand_inv in H3.
  { intros [= <-]. apply (Hrej 2 "beta"); [done| |done].
    intros [|[|?]] r ? ?; simplify_eq/=; [by eauto|by eauto|lia]. }
  destruct (param_operand node_map node "gamma" cc) as [[?|[p4 v4]]|?] eqn:H4;
    cbn; [| |done]; apply param_operand_inv in H4.
  { intros [= <-]. apply (Hrej 3 "gamma"); [done| |done].
    intros [|[|[|?]]] r ? ?; simplify_eq/=; [by eauto|by eauto|by eauto|lia]. }
  done.
Qed.

(** The candidates that the scan folds are exactly the valid matches. *)
Lemma match_candidate_valid_inv node_map node m :
  match_candidate node_map node = Ok (inr m) → valid_match node_map node m.
Proof.
  unfold match_candidate.
  destruct (operand node "conv_op") as [ref|?] eqn:Href; cbn; [|done].
  destruct (node_from_map node_map ref) as [conv|?] eqn:Hconv; cbn; [|done].
  destruct (is_convolution conv) eqn:Hkind; cbn; [|done].
  destruct (index (input conv) 1) as [wref|?] eqn:Hwref; cbn; [|done].
  destruct (node_from_map node_map wref) as [w_op|?] eqn:Hw; cbn; [|done].
  case_decide as Hop; [|done].
  destruct (values_from_const w_op) as [wt|?] eqn:Hwt; cbn; [|done].
  destruct (channel_count_of conv wt) as [cc|?] eqn:Hcc; cbn; [|done].
  destruct (param_operand node_map node "mean" cc) as [[?|[p1 v1]]|?] eqn:H1;
    cbn; [done| |done]; apply param_operand_inv in H1.
  destruct (param_operand node_map node "var" cc) as [[?|[p2 v2]]|?] eqn:H2;
    cbn; [done| |done]; apply param_operand_inv in H2.
  destruct (param_operand node_map node "beta" cc) as [[?|[p3 v3]]|?] eqn:H3;
    cbn; [done| |done]; apply param_operand_inv in H3.
  destruct (param_operand node_map node "gamma" cc) as [[?|[p4 v4]]|?] eqn:H4;
    cbn; [done| |done]; apply param_operand_inv in H4.
  intros [= <-]. unfold valid_match. cbn. split_and!; try done.
  - by exists ref.
  - by exists wref.
  - by exists cc.
Qed.

End validation.

Section node_map.
Context {F : Type} `{Float F}.
Implicit Types (node : @NodeDef F) (g nodes : @GraphDef F)
               (node_map : gmap string (@NodeDef F)).

Lemma graph_map_cons node g :
  graph_map (node :: g) = <[name node := node]> (graph_map g).
Proof. done. Qed.

Lemma graph_map_lookup_None g k :
  k ∉ name <$> g → graph_map g !! k = None.
Proof.
  intros Hk. apply not_elem_of_list_to_map_1.
  by rewrite <-list_fmap_compose.
Qed.

(** With distinct names, the loop builds the name-to-node map. *)
Lemma build_node_map_distinct nodes node_map :
  NoDup (name <$> nodes) →
  (∀ n, n ∈ nodes → node_map !! name n = None) →
  ∃ m', build_node_map nodes node_map = Ok m'
        ∧ ∀ k, m' !! k = union_with (fun x _ => Some x)
                           (graph_map nodes !! k) (node_map !! k).
Proof.
  revert node_map. induction nodes as [|n nodes IH]; intros node_map Hnd Hfresh.
  - exists node_map. split; [done|]. intros k.
    unfold graph_map. simpl. rewrite lookup_empty. by destruct (node_map !! k).
  - rewrite fmap_cons in Hnd. apply NoDup_cons in Hnd as [Hn Hnd].
    simpl. rewrite (Hfresh n) by left.
    destruct (IH (<[name n := n]> node_map) Hnd) as (m' & -> & Hm').
    { intros x Hx. rewrite lookup_insert_ne; [apply Hfresh; by right|].
      intros Heq. apply Hn. rewrite Heq. by apply list_elem_of_fmap_2. }
    exists m'. split; [done|]. intros k. rewrite Hm', graph_map_cons.
    destruct (decide (name n = k)) as [<-|Hne].
    + rewrite !lookup_insert_eq, graph_map_lookup_None by done.
      by rewrite (Hfresh n) by left.
    + by rewrite !lookup_insert_ne.
Qed.

Lemma build_node_map_graph_map g :
  NoDup (name <$> g) → build_node_map g ∅ = Ok (graph_map g).
Proof.
  intros Hnd. destruct (build_node_map_distinct g ∅ Hnd) as (m' & -> & Hm').
  { intros. apply lookup_empty. }
  f_equal. apply map_eq. intros k. rewrite Hm', lookup_empty.
  by destruct (graph_map g !! k).
Qed.

(** Otherwise it raises at the first node whose name was seen before. *)
Lemma build_node_map_duplicate nodes node_map :
  (¬ NoDup (name <$> nodes)
   ∨ ∃ n, n ∈ nodes ∧ is_Some (node_map !! name n)) →
  ∃ pre node post,
    nodes = pre ++ node :: post
    ∧ NoDup (name <$> pre)
    ∧ (∀ x, x ∈ pre → node_map !! name x = None)
    ∧ (name node ∈ name <$> pre ∨ is_Some (node_map !! name node))
    ∧ build_node_map nodes node_map = Raise (duplicate_error (name node)).
Proof.
  revert node_map. induction nodes as [|n nodes IH]; intros node_map Hbad.
  - exfalso. destruct Hbad as [Hbad|(x & Hx & _)].
    + apply Hbad. constructor.
    + by apply elem_of_nil in Hx.
  - simpl. destruct (node_map !! name n) as [old|] eqn:Hold.
    + exists [], n, nodes. split_and!; try done.
      * constructor.
      * intros x Hx. by apply elem_of_nil in Hx.
      * right. by rewrite Hold.
    + destruct (IH (<[name n := n]> node_map)) as
        (pre & node & post & -> & Hnd & Hfresh & Hdup & ->).
      { destruct (decide (name n ∈ name <$> nodes)) as [Hin|Hnin].
        - right. apply list_elem_of_fmap in Hin as (x & Hx & Hin).
          exists x. split; [done|]. rewrite <-Hx, lookup_insert_eq. by eexists.
        - destruct Hbad as [Hbad|(x & Hx & Hsome)].
          + left. intros Hnd. apply Hbad. rewrite fmap_cons.
            by apply NoDup_cons.
          + right. exists x. apply elem_of_cons in Hx as [->|Hx].
            { rewrite Hold in Hsome. by destruct Hsome. }
            split; [done|]. destruct (decide (name n = name x)) as [->|Hne].
            * rewrite lookup_insert_eq. by eexists.
            * by rewrite lookup_insert_ne. }
      exists (n :: pre), node, post.
      assert (∀ x, x ∈ pre → name x ≠ name n) as Hne.
      { intros x Hx Heq. specialize (Hfresh x Hx).
        by rewrite Heq, lookup_insert_eq in Hfresh. }
      split_and!; try done.
      * rewrite fmap_cons. apply NoDup_cons. split; [|done].
        intros (x & Hx & Hin)%list_elem_of_fmap. by apply (Hne x).
      * intros x [->|Hx]%elem_of_cons; [done|].
        specialize (Hfresh x Hx). rewrite lookup_insert_ne in Hfresh; [done|].
        intros Heq. by apply (Hne x).
      * destruct Hdup as [Hdup|Hdup].
        { left. rewrite fmap_cons. by right. }
        destruct (decide (name n = name node)) as [Heq|Hneq].
        { left. rewrite fmap_cons, Heq. by left. }
        right. by rewrite lookup_insert_ne in Hdup.
Qed.

Lemma duplicate_names_in_map g :
  ¬ NoDup (name <$> g) → ∃ e, build_node_map g ∅ = Raise e.
Proof.
  intros Hdup.
  destruct (build_node_map_duplicate g ∅) as
    (? & node & ? & _ & _ & _ & _ & Hraise); [by left|].
  by eexists.
Qed.

Lemma graph_map_lookup g n :
  NoDup (name <$> g) → n ∈ g → graph_map g !! name n = Some n.
Proof.
  intros Hnd Hin. unfold graph_map. apply elem_of_list_to_map_1.
  - by rewrite <-list_fmap_compose.
  - apply list_elem_of_fmap. by exists n.
Qed.

Lemma build_node_map_inv g node_map :
  build_node_map g ∅ = Ok node_map →
  NoDup (name <$> g) ∧ node_map = graph_map g.
Proof.
  intros Hm. destruct (decide (NoDup (name <$> g))) as [Hnd|Hnd].
  - split; [done|]. rewrite (build_node_map_graph_map g Hnd) in Hm. congruence.
  - destruct (duplicate_names_in_map g Hnd) as (? & Hr). congruence.
Qed.

End node_map.

Section scan.
Context {F : Type} `{Float F}.
Implicit Types (node : @NodeDef F) (g nodes : @GraphDef F)
               (node_map : gmap string (@NodeDef F)) (st : @scan_state F).

Lemma scan_node_other node_map node st :
  is_batch_norm node = false → scan_node node_map node st = Ok st.
Proof. unfold scan_node. by intros ->. Qed.

Lemma scan_node_failure node_map node st w :
  is_batch_norm node = true → validation_failure node_map node w →
  scan_node node_map node st = Ok (warn w st).
Proof.
  intros Hbn Hw. unfold scan_node. rewrite Hbn. cbn.
  by rewrite (match_candidate_failure _ _ _ Hw).
Qed.

Lemma scan_nodes_app node_map nodes1 nodes2 st :
  scan_nodes node_map (nodes1 ++ nodes2) st =
  scan_nodes node_map nodes1 st ≫= scan_nodes node_map nodes2.
Proof.
  revert st. induction nodes1 as [|n nodes1 IH]; intros st; [done|].
  simpl. destruct (scan_node node_map n st) as [st'|e]; [|done].
  apply IH.
Qed.

Lemma scan_node_valid node_map node m st ops :
  is_batch_norm node = true → valid_match node_map node m →
  folded_ops node m (bool_decide (name (conv_op m) ∈ nodes_to_skip st))
  = Ok ops →
  scan_node node_map node st =
  Ok {| nodes_to_skip := nodes_to_skip st ∪ matched_names node m;
        new_ops := new_ops st ++ ops; log := log st |}.
Proof.
  intros Hbn Hm%match_candidate_valid Hops. unfold scan_node.
  rewrite Hbn, Hm. cbn. unfold fold_match. by rewrite Hops.
Qed.

(** A scan step only adds to the skip set and appends to the new ops. *)
Lemma scan_node_grows node_map node st st' :
  scan_node node_map node st = Ok st' →
  nodes_to_skip st ⊆ nodes_to_skip st'
  ∧ ∃ ops, new_ops st' = new_ops st ++ ops.
Proof.
  unfold scan_node. destruct (is_batch_norm node); cbn.
  - destruct (match_candidate node_map node) as [[w|m]|e]; cbn; [| |done].
    + intros [= <-]. split; [done|]. exists []. simpl. by rewrite app_nil_r.
    + unfold fold_match. destruct (folded_ops node m _) as [ops|e]; cbn; [|done].
      intros [= <-]. simpl. split; [apply union_subseteq_l|]. by exists ops.
  - intros [= <-]. split; [done|]. exists []. by rewrite app_nil_r.
Qed.

Lemma scan_nodes_grows node_map nodes st st' :
  scan_nodes node_map nodes st = Ok st' →
  nodes_to_skip st ⊆ nodes_to_skip st'
  ∧ ∃ ops, new_ops st' = new_ops st ++ ops.
Proof.
  revert st. induction nodes as [|n nodes IH]; intros st; simpl.
  - intros [= <-]. split; [done|]. exists []. by rewrite app_nil_r.
  - destruct (scan_node node_map n st) as [st1|e] eqn:Hn; cbn; [|done].
    intros Hrest. destruct (scan_node_grows _ _ _ _ Hn) as (Hs1 & ops1 & Ho1).
    destruct (IH _ Hrest) as (Hs2 & ops2 & Ho2). split; [by etrans|].
    exists (ops1 ++ ops2). by rewrite Ho2, Ho1, app_assoc.
Qed.

(** A candidate that passes validation leaves its four ops in [new_ops]
    and the names of its operands in [nodes_to_skip]. *)
Lemma scan_nodes_folds node_map nodes st st' node m :
  scan_nodes node_map nodes st = Ok st' →
  node ∈ nodes → is_batch_norm node = true →
  match_candidate node_map node = Ok (inr m) →
  ∃ ops before after refolded,
    folded_ops node m refolded = Ok ops
    ∧ new_ops st' = before ++ ops ++ after
    ∧ matched_names node m ⊆ nodes_to_skip st'.
Proof.
  revert st. induction nodes as [|n nodes IH]; intros st Hscan Hin Hbn Hm.
  - by apply elem_of_nil in Hin.
  - simpl in Hscan.
    destruct (scan_node node_map n st) as [st1|e] eqn:Hn; cbn in Hscan; [|done].
    apply elem_of_cons in Hin as [->|Hin].
    + unfold scan_node in Hn. rewrite Hbn, Hm in Hn. cbn in Hn.
      unfold fold_match in Hn.
      destruct (folded_ops n m _) as [ops|e] eqn:Hops; cbn in Hn; [|done].
      injection Hn as <-.
      destruct (scan_nodes_grows _ _ _ _ Hscan) as (Hskip & rest & Hrest).
      simpl in *. eexists ops, (new_ops st), rest, _. split; [done|].
      split; [by rewrite Hrest, app_assoc|].
      etrans; [|exact Hskip]. apply union_subseteq_r.
    + by apply (IH st1).
Qed.

(** When every batch-norm candidate is rejected, the scan creates no op
    and skips no node. *)
Lemma scan_nodes_all_rejected node_map nodes st :
  (∀ node, node ∈ nodes → is_batch_norm node = true →
           ∃ w, validation_failure node_map node w) →
  ∃ st', scan_nodes node_map nodes st = Ok st'
         ∧ nodes_to_skip st' = nodes_to_skip st
         ∧ new_ops st' = new_ops st.
Proof.
  revert st. induction nodes as [|n nodes IH]; intros st Hall; simpl.
  - by exists st.
  - destruct (is_batch_norm n) eqn:Hbn.
    + destruct (Hall n) as [w Hw]; [by left|done|].
      rewrite (scan_node_failure _ _ _ _ Hbn Hw). cbn.
      destruct (IH (warn w st)) as (st' & -> & Hs & Ho).
      { intros. apply Hall; [by right|done]. }
      by exists st'.
    + rewrite (scan_node_other _ _ _ Hbn). cbn.
      destruct (IH st) as (st' & -> & Hs & Ho).
      { intros. apply Hall; [by right|done]. }
      by exists st'.
Qed.

End scan.

Section pass.
Context {F : Type} `{Float F}.
Implicit Types (node : @NodeDef F) (g : @GraphDef F)
               (node_map : gmap string (@NodeDef F)) (st : @scan_state F).

Lemma filter_all {A} (P : A → Prop) `{∀ x, Decision (P x)} (l : list A) :
  (∀ x, x ∈ l → P x) → filter P l = l.
Proof.
  induction l as [|x l IH]; intros Hall; [done|].
  rewrite filter_cons_True by (apply Hall; by left).
  f_equal. apply IH. intros. apply Hall. by right.
Qed.

(** C5.  A batch-norm candidate that fails a validation check (the
    preceding op is not a convolution, the weights or a parameter are not
    constants, a parameter's shape differs from the channel count) is
    skipped without raising: wherever it stands in the node list, the
    scan goes on with the remaining nodes from a state in which the
    warning has been recorded and nothing else has changed. *)
Theorem rejected_candidate_is_skipped node_map before node after st w :
  is_batch_norm node = true →
  validation_failure node_map node w →
  scan_nodes node_map (before ++ node :: after) st =
    (scan_nodes node_map before st ≫= fun st1 =>
       scan_nodes node_map after (warn w st1))
  ∧ ∀ st1, nodes_to_skip (warn w st1) = nodes_to_skip st1
           ∧ new_ops (warn w st1) = new_ops st1
           ∧ log (warn w st1) = log st1 ++ [w].
Proof.
  intros Hbn Hw. split; [|done].
  rewrite scan_nodes_app.
  destruct (scan_nodes node_map before st) as [st1|e]; [|done].
  cbn. by rewrite (scan_node_failure _ _ _ _ Hbn Hw).
Qed.

Lemma touch_attr_get_attr key node key' :
  get_attr (touch_attr key node) key' = get_attr node key'.
Proof.
  unfold get_attr, touch_attr. simpl.
  destruct (attr node !! key) eqn:Hk; [done|].
  destruct (decide (key = key')) as [<-|Hne].
  - by rewrite lookup_insert_eq, Hk.
  - by rewrite lookup_insert_ne.
Qed.

(** The copy of a convolution reads like the convolution. *)
Lemma copy_conv_op_get_attr refolded node key :
  get_attr (copy_conv_op refolded node) key = get_attr node key.
Proof.
  destruct refolded; [|done]. simpl. by rewrite !touch_attr_get_attr.
Qed.

(** C7.  A graph in which two nodes share a name makes [do_transform]
    raise the duplicate-name error for the first repeated name; the error
    comes from the map-building loop, before any node is scanned. *)
Theorem duplicate_names_raise g :
  ¬ NoDup (name <$> g) →
  ∃ before node after,
    g = before ++ node :: after
    ∧ NoDup (name <$> before)
    ∧ name node ∈ name <$> before
    ∧ build_node_map g ∅ = Raise (duplicate_error (name node))
    ∧ do_transform g = Raise (duplicate_error (name node)).
Proof.
  intros Hdup.
  destruct (build_node_map_duplicate g ∅) as
    (before & node & after & -> & Hnd & _ & [Hin|Hin] & Hraise); [by left| |].
  - exists before, node, after. split_and!; try done.
    unfold do_transform, scan_graph. by rewrite Hraise.
  - rewrite lookup_empty in Hin. by destruct Hin.
Qed.

(** C8, for graphs in which every batch-norm node fails a validation
    check.  On a graph with distinct names in which there is no
    batch-norm node, or each one fails a check, [do_transform] returns
    the input graph: the same nodes in the same order. *)
Theorem no_pattern_no_change g :
  NoDup (name <$> g) →
  (∀ node, node ∈ g → is_batch_norm node = true →
           ∃ w, validation_failure (graph_map g) node w) →
  do_transform g = Ok g.
Proof.
  intros Hnd Hall. unfold do_transform, scan_graph.
  rewrite (build_node_map_graph_map g Hnd). cbn.
  destruct (scan_nodes_all_rejected (graph_map g) g initial_state Hall)
    as (st & -> & Hskip & Hops).
  cbn. f_equal. unfold result_graph. rewrite Hops, Hskip. simpl.
  rewrite app_nil_r. apply filter_all. intros x _. apply not_elem_of_empty.
Qed.

End pass.

Section replaced_match.
Context {F : Type} `{Float F}.
Implicit Types (node : @NodeDef F) (g out : list (@NodeDef F))
               (node_map : gmap string (@NodeDef F)) (st : @scan_state F).

(** In a graph with distinct names a reference finds the node it names. *)
Lemma reference_resolves out n ref :
  NoDup (name <$> out) → n ∈ out →
  node_name_from_input ref = name n →
  node_from_map (graph_map out) ref = Ok n.
Proof.
  intros Hnd Hin Href. unfold node_from_map.
  by rewrite Href, (graph_map_lookup out n Hnd Hin).
Qed.

Lemma same_name_same_node out n n' :
  NoDup (name <$> out) → n ∈ out → n' ∈ out → name n' = name n → n' = n.
Proof.
  intros Hnd Hin Hin' Hname.
  pose proof (graph_map_lookup out n Hnd Hin) as Hn.
  pose proof (graph_map_lookup out n' Hnd Hin') as Hn'.
  rewrite Hname in Hn'. congruence.
Qed.


End replaced_match.

Section pass_examples.
Import Examples.

Lemma pooled_bn_rejected :
  validation_failure (graph_map pooled_graph) pooled_bn_node
    (NotConvolution "bn").
Proof.
  change (validation_failure (graph_map pooled_graph) pooled_bn_node
            (NotConvolution (name pooled_bn_node))).
  apply (not_convolution _ _ pool_node); [exists "pool"|]; done.
Qed.

Lemma folding_match_valid :
  valid_match (graph_map folding_graph) bn_node folding_match.
Proof.
  split_and!; try done.
  - by exists "conv".
  - by exists "w".
  - exists 2. split_and!; try done.
    + split_and!; try done. by exists "mean".
    + split_and!; try done. by exists "var".
    + split_and!; try done. by exists "beta".
    + split_and!; try done. by exists "gamma".
Qed.

Lemma folding_graph_folded : do_transform folding_graph = Ok folded_graph.
Proof. vm_compute. reflexivity. Qed.

Lemma rejected_candidate_is_skipped_witness :
  scan_nodes (graph_map pooled_graph) pooled_graph initial_state
  = Ok (warn (NotConvolution "bn") initial_state).
Proof.
  change pooled_graph with
    ([x_node; pool_node; gamma_node; beta_node; mean_node; var_node]
     ++ pooled_bn_node :: [relu_node]) at 2.
  rewrite (proj1 (rejected_candidate_is_skipped (graph_map pooled_graph)
             _ pooled_bn_node _ initial_state (NotConvolution "bn")
             eq_refl pooled_bn_rejected)).
  reflexivity.
Defined.

Lemma duplicate_names_raise_witness :
  ∃ before node after,
    duplicate_graph = before ++ node :: after
    ∧ NoDup (name <$> before)
    ∧ name node ∈ name <$> before
    ∧ build_node_map duplicate_graph ∅ = Raise (duplicate_error (name node))
    ∧ do_transform duplicate_graph = Raise (duplicate_error (name node)).
Proof.
  apply (duplicate_names_raise duplicate_graph).
  intros Hnd. apply (NoDup_lookup _ 1 9 "w") in Hnd; [lia|done|done].
Defined.

Lemma no_pattern_no_change_witness :
  do_transform pooled_graph = Ok pooled_graph.
Proof.
  apply (no_pattern_no_change pooled_graph).
  - apply (bool_decide_unpack _). vm_compute. exact I.
  - intros node Hin Hbn. exists (NotConvolution "bn").
    unfold pooled_graph in Hin. rewrite !elem_of_cons, elem_of_nil in Hin.
    destruct Hin as [->|[->|[->|[->|[->|[->|[->|[->|[]]]]]]]]];
      try discriminate Hbn.
    apply pooled_bn_rejected.
Defined.

Lemma folded_graph_distinct : NoDup (name <$> folded_graph).
Proof. apply (bool_decide_unpack _). vm_compute. exact I. Qed.



(** C8 as stated, for every graph without a valid pattern, fails.  The
    graph has distinct names and its batch-norm node has no valid match
    (no node has one), yet the pass does not return the graph: the lookup
    of the missing convolution raises. *)
Lemma no_pattern_dangling_operand :
  NoDup (name <$> dangling_graph)
  ∧ (∀ node m, node ∈ dangling_graph →
               ¬ valid_match (graph_map dangling_graph) node m)
  ∧ do_transform dangling_graph
    = Raise (ValueError ["No node named 'conv' found in map."]).
Proof.
  split_and!.
  - apply (bool_decide_unpack _). vm_compute. exact I.
  - intros node m Hin Hvalid%match_candidate_valid.
    unfold dangling_graph in Hin. rewrite !elem_of_cons, elem_of_nil in Hin.
    destruct Hin as [->|[->|[->|[->|[->|[]]]]]]; vm_compute in Hvalid;
      discriminate Hvalid.
  - vm_compute. reflexivity.
Qed.

End pass_examples.

Section node_name_examples.
Import Examples.



End node_name_examples.

(* ================================================================== *)
(** * Properties of the graph converter *)
(* ================================================================== *)

Section parse_output.
Import GraphConverter.

(** C6.  [_parse_output] fails its delimiter check, with an
    [AssertionError], exactly when the captured text holds an odd number
    of semicolons; a text with an even number passes the check. *)
Theorem parse_output_delimiter_check (input_data : string)
    (output_data : list string) :
  _parse_output input_data output_data = Raise AssertionError
  ↔ Nat.Odd (count semicolon input_data).
Proof.
  unfold _parse_output.
  destruct (decide (count semicolon input_data `mod` 2 = 0)) as [Heven|Hodd].
  - split.
    + by destruct (last _).
    + intros [k Hk]. exfalso. rewrite Hk in Heven.
      rewrite Nat.add_comm, Nat.mul_comm, Nat.Div0.mod_add in Heven. done.
  - split; [|done]. intros _.
    destruct (Nat.Even_or_Odd (count semicolon input_data)) as [[k Hk]|Ho];
      [|done].
    exfalso. apply Hodd. by rewrite Hk, Nat.mul_comm, Nat.Div0.mod_mul.
Qed.

End parse_output.

Section converter_state.
Import GraphConverter.
Context {F : Type} `{Float F}.
Implicit Types (c : @converter F) (env : @collaborators F)
               (g : @GraphDef F).

Lemma on_message_comes_back l body c g g' :
  heap c !! l = Some g → comes_back (body g) g' →
  on_message l body c = Normal (set_heap (<[l := g']> (heap c)) c).
Proof.
  intros Hl Hb. unfold on_message. rewrite Hl.
  destruct (body g); simpl in Hb; by subst.
Qed.

Lemma seq_normal {S V} (c1 c2 : stmt S V) s s' :
  c1 s = Normal s' → seq c1 c2 s = c2 s'.
Proof. unfold seq. by intros ->. Qed.

(** C10.  When the three logging insertions come back, [_insert_logging]
    completes normally and leaves [_tmp_graph_def] referring to the same
    message with the contents it had before the call; every message that
    existed before is unchanged; and the instrumented graph has been
    written to the logged-graph file and to no other file. *)
Theorem insert_logging_restores_graph env c l g g1 g2 g3 :
  _tmp_graph_def c = Some l →
  heap c !! l = Some g →
  comes_back (InsertLogging env
                ["RequantizationRange"; "RequantizationRangePerChannel"]
                "__requant_min_max:" g) g1 →
  comes_back (InsertLogging env ["Min"] "__min:" g1) g2 →
  comes_back (InsertLogging env ["Max"] "__max:" g2) g3 →
  ∃ c', _insert_logging env c = Normal c'
        ∧ _tmp_graph_def c' = Some l
        ∧ heap c' !! l = Some g
        ∧ (∀ l', is_Some (heap c !! l') → heap c' !! l' = heap c !! l')
        ∧ files c' = <[_int8_logged_graph c := g3]> (files c)
        ∧ debug c' = debug c ∧ error_log c' = error_log c.
Proof.
  intros Htmp Hl H1 H2 H3.
  set (l0 := fresh (dom (heap c))).
  assert (l0 ≠ l) as Hfresh.
  { intros Heq. apply (is_fresh (dom (heap c))). fold l0. rewrite Heq.
    apply elem_of_dom. by eexists. }
  unfold _insert_logging. fold l0.
  set (c0 := set_heap (<[l0 := []]> (heap c)) c).
  assert (_tmp_graph_def c0 = Some l) as Htmp0 by done.
  rewrite Htmp0.
  erewrite seq_normal; cycle 1.
  { unfold CopyFrom. cbn. rewrite lookup_insert_ne by done. by rewrite Hl. }
  erewrite seq_normal; cycle 1.
  { unfold on_tmp_graph. cbn. rewrite Htmp.
    eapply on_message_comes_back; [|exact H1].
    cbn. by rewrite !lookup_insert_ne. }
  erewrite seq_normal; cycle 1.
  { unfold on_tmp_graph. cbn. rewrite Htmp.
    eapply on_message_comes_back; [|exact H2].
    cbn. by rewrite lookup_insert_eq. }
  erewrite seq_normal; cycle 1.
  { unfold on_tmp_graph. cbn. rewrite Htmp.
    eapply on_message_comes_back; [|exact H3].
    cbn. by rewrite lookup_insert_eq. }
  erewrite seq_normal; cycle 1.
  { unfold write_graph. cbn. rewrite Htmp. cbn.
    by rewrite lookup_insert_eq. }
  cbn. rewrite Htmp. unfold CopyFrom. cbn.
  rewrite !lookup_insert_ne by done. rewrite lookup_insert_eq.
  eexists. split; [done|]. cbn. split_and!; try done.
  - by rewrite lookup_insert_eq.
  - intros l' Hsome. destruct (decide (l' = l)) as [->|Hne].
    + by rewrite lookup_insert_eq.
    + assert (l0 ≠ l') as Hne0.
      { intros <-. apply (is_fresh (dom (heap c))). fold l0.
        by apply elem_of_dom. }
      by rewrite !lookup_insert_ne by done.
Qed.

(** Whatever [quantize] raises was raised by its [finally] clause. *)
Lemma quantize_throw_from_finally env c e c' :
  quantize env c = Throw e c' →
  ∃ c0, quantize_finally env c0 = Throw e c'.
Proof.
  unfold quantize, try_except_finally.
  set (pending := match quantize_body env c with
                  | Throw e0 s' => quantize_handler e0 s'
                  | o => o end).
  destruct (quantize_finally env (state_of pending)) as [s|v s|e0 s] eqn:Hf.
  - unfold quantize_finally, seq in Hf.
    destruct (when _ _ _) as [s1| |]; try done.
    destruct (tmp_graph s1); [|done].
    by destruct (import_graph_def env _).
  - done.
  - intros [= -> ->]. by eexists.
Qed.

End converter_state.

Section converter_examples.
Import GraphConverter Examples.

(** C2 on the code.  The quantization pass raises; [quantize] logs the
    failure, removes the logged-graph file and then returns the graph it
    holds: the [return] in its [finally] clause discards the wrapped
    exception, and the caller sees no error. *)
Theorem quantize_swallows_exception :
  quantize failing_env ready_converter
  = Return folded_graph failed_converter.
Proof. vm_compute. reflexivity. Qed.

Lemma insert_logging_restores_graph_witness :
  ∃ c', _insert_logging working_env ready_converter = Normal c'
        ∧ tmp_graph c' = Some folded_graph
        ∧ files c' !! "out/int8_logged_graph.pb" = Some logged_graph.
Proof.
  destruct (insert_logging_restores_graph working_env ready_converter 0
              folded_graph
              (folded_graph ++
                 [simple "__requant_min_max:" "Print"
                    ["RequantizationRange"; "RequantizationRangePerChannel"]])
              (folded_graph ++
                 [simple "__requant_min_max:" "Print"
                    ["RequantizationRange"; "RequantizationRangePerChannel"]]
                 ++ [simple "__min:" "Print" ["Min"]])
              logged_graph)
    as (c' & Hrun & Htmp & Hheap & _ & Hfiles & _); try reflexivity.
  exists c'. split; [done|]. split.
  - unfold tmp_graph. rewrite Htmp. exact Hheap.
  - rewrite Hfiles. apply lookup_insert_eq.
Defined.

End converter_examples.

Section output_grabber.
Import GraphConverter GraphConverter.OutputGrabber.

Lemma append_cons c (s t : string) : String c s +:+ t = String c (s +:+ t).
Proof. done. Qed.

Lemma substring_whole (s : string) n :
  String.length s ≤ n → String.substring 0 n s = s.
Proof.
  revert n. induction s as [|c s IH]; intros [|n] Hn; simpl in *;
    try done; try lia.
  f_equal. apply IH. lia.
Qed.

Lemma last_char_snoc (s : string) c :
  last_char (s +:+ String c "") = Some c.
Proof.
  induction s as [|a s IH]; [done|]. rewrite append_cons.
  destruct s as [|b s]; [done|]. rewrite append_cons in *. exact IH.
Qed.

Lemma length_snoc (s : string) c :
  String.length (s +:+ String c "") = S (String.length s).
Proof. induction s as [|a s IH]; [done|]. rewrite append_cons. simpl. by rewrite IH. Qed.

(** What the reader loop keeps when all the text and the escape
    character arrive in one read: nothing. *)
Lemma readOutput_single_read (g : grabber) (data : string) :
  pipe g = data +:+ String escape_char "" →
  String.length data < read_size →
  readOutput 1 g = Some {| threaded := threaded g;
                           capturedtext := capturedtext g;
                           pipe := "" |}.
Proof.
  intros Hpipe Hlen. unfold readOutput, os_read. rewrite Hpipe.
  assert (String.length (data +:+ String escape_char "") ≤ read_size) as Hle.
  { rewrite length_snoc. lia. }
  destruct (data +:+ String escape_char "") as [|c s] eqn:Hs.
  { by destruct data. }
  rewrite (substring_whole _ _ Hle). rewrite <-Hs. unfold stops.
  rewrite last_char_snoc, Ascii.eqb_refl. do 2 f_equal.
  rewrite Hs. replace (String.length (String c s) - read_size) with 0 by lia.
  clear. generalize read_size (String c s). intros n t. revert n.
  induction t as [|a t IH]; intros [|n]; simpl; auto.
Qed.

(** C3 on the code.  Without a reader thread, a text shorter than one
    read is lost whole: it reaches the reader in the same chunk as the
    escape character, and that chunk is dropped. *)
Theorem unthreaded_grab_loses_text (data : string) :
  String.length data < read_size → grab 1 data = Some "".
Proof.
  intros Hlen. unfold grab, stop.
  by rewrite (readOutput_single_read _ data).
Qed.

Lemma unthreaded_grab_loses_text_witness : grab 1 "hi" = Some "".
Proof.
  apply (unthreaded_grab_loses_text "hi"). unfold read_size. simpl. lia.
Defined.

(** With a reader thread: whatever shares the last read with the escape
    character is dropped; only the earlier reads are kept. *)
Lemma reader_drops_final_read (reads : list string) (tail captured : string) :
  Forall (fun r => stops r = false) reads →
  readOutput_reads (reads ++ [tail +:+ String escape_char ""]) captured
  = Some (foldl String.append captured reads).
Proof.
  intros Hreads. revert captured.
  induction Hreads as [|r reads Hr _ IH]; intros captured; simpl.
  - unfold stops. by rewrite last_char_snoc, Ascii.eqb_refl.
  - rewrite Hr. apply IH.
Qed.

End output_grabber.

Section arrays.
Context {F : Type} `{Float F}.

Lemma map_result_lookup {A B} (f : A → result B) (l : list A) (l' : list B) :
  map_result f l = Ok l' →
  length l' = length l
  ∧ ∀ i x, l !! i = Some x → ∃ y, f x = Ok y ∧ l' !! i = Some y.
Proof.
  revert l'. induction l as [|a l IH]; intros l'; simpl.
  - intros [= <-]. split; [done|]. intros i x Hx. done.
  - destruct (f a) as [b|e] eqn:Hb; cbn; [|done].
    destruct (map_result f l) as [bs|e]; cbn; [|done].
    intros [= <-]. destruct (IH bs eq_refl) as [Hlen Hl]. split.
    + simpl. by rewrite Hlen.
    + intros [|i] x Hx; simpl in *.
      * injection Hx as <-. by exists b.
      * by apply Hl.
Qed.

Lemma unravel_rev_4 s0 s1 s2 s3 i0 i1 i2 i3 :
  i0 < s0 → i1 < s1 → i2 < s2 → i3 < s3 →
  multi_index [s0; s1; s2; s3] (flat_index s1 s2 s3 i0 i1 i2 i3)
  = [i0; i1; i2; i3].
Proof.
  intros H0 H1 H2 H3. unfold multi_index, flat_index. cbn [rev app unravel_rev].
  assert (∀ a b s, b < s → (a * s + b) `mod` s = b ∧ (a * s + b) / s = a)
    as Hdm.
  { intros a b s Hb. split.
    - rewrite Nat.add_comm, Nat.Div0.mod_add. by apply Nat.mod_small.
    - rewrite Nat.add_comm, Nat.div_add by lia.
      rewrite Nat.div_small by done. done. }
  destruct (Hdm ((i0 * s1 + i1) * s2 + i2) i3 s3 H3) as [-> ->].
  destruct (Hdm (i0 * s1 + i1) i2 s2 H2) as [-> ->].
  destruct (Hdm i0 i1 s1 H1) as [-> ->].
  by rewrite (Nat.mod_small i0 s0).
Qed.

Lemma MakeNdarray_inv (t a : @ndarray F) :
  MakeNdarray t = Ok a → a = t ∧ length (values a) = foldr Nat.mul 1 (shape a).
Proof. unfold MakeNdarray. case_decide; [|done]. by intros [= <-]. Qed.

Lemma values_from_const_length (p : @NodeDef F) (a : @ndarray F) :
  values_from_const p = Ok a →
  length (values a) = foldr Nat.mul 1 (shape a).
Proof.
  unfold values_from_const. case_decide; [|done].
  destruct (attr p !! "value") as [[]|]; try done.
  by intros [_ ?]%MakeNdarray_inv.
Qed.

Lemma param_passes_length node_map (node p : @NodeDef F) role cc v :
  param_passes node_map node role cc p v → length (values v) = cc.
Proof.
  intros (_ & _ & Hv%values_from_const_length & Hs). rewrite Hv, Hs. simpl. lia.
Qed.

End arrays.

(** ** Rounding errors

    How the relative errors of rounded operations add up: each operation
    widens the factor between the computed and the exact value by at most
    [growth u]. *)

Section rounding.
Local Open Scope R_scope.

Lemma Rabs_bound d b : Rabs d <= b → - b <= d <= b.
Proof. unfold Rabs. destruct (Rcase_abs d); lra. Qed.

Variable u : R.
Hypothesis Hu : 0 <= u < 1.

Lemma growth_ge_1 : 1 <= growth u.
Proof.
  unfold growth. apply (Rmult_le_reg_r (1 - u)); [lra|].
  unfold Rdiv. rewrite Rmult_assoc, Rinv_l by lra. lra.
Qed.

Lemma growth_pow_ge_1 k : 1 <= growth u ^ k.
Proof. apply pow_R1_Rle, growth_ge_1. Qed.

Lemma growth_inv_le_1 k : 0 < / growth u ^ k <= 1.
Proof.
  pose proof (growth_pow_ge_1 k). split.
  - apply Rinv_0_lt_compat. lra.
  - rewrite <-Rinv_1. apply Rinv_le_contravar; lra.
Qed.

Lemma rel_refl x : rel u 0 x x.
Proof. exists 1. simpl. rewrite Rinv_1. split; lra. Qed.

Lemma rel_round x d : Rabs d <= u → rel u 1 (x * (1 + d)) x.
Proof.
  intros Hd. exists (1 + d). split; [done|].
  apply Rabs_bound in Hd. simpl. rewrite Rmult_1_r.
  assert (growth u = (1 + u) / (1 - u)) as -> by done.
  split.
  - rewrite Rinv_div. apply (Rmult_le_reg_r (1 + u)); [lra|].
    unfold Rdiv. rewrite Rmult_assoc, Rinv_l by lra. nra.
  - apply (Rmult_le_reg_r (1 - u)); [lra|].
    unfold Rdiv. rewrite Rmult_assoc, Rinv_l by lra. nra.
Qed.

Lemma rel_mul j k a a' b b' :
  rel u j a a' → rel u k b b' → rel u (j + k) (a * b) (a' * b').
Proof.
  intros (r1 & -> & H1) (r2 & -> & H2). exists (r1 * r2). split; [ring|].
  pose proof (growth_inv_le_1 j). pose proof (growth_inv_le_1 k).
  pose proof (growth_pow_ge_1 j). pose proof (growth_pow_ge_1 k).
  rewrite pow_add, Rinv_mult. split; apply Rmult_le_compat; lra.
Qed.

Lemma rel_pos k x y : rel u k x y → 0 < y → 0 < x.
Proof.
  intros (r & -> & Hr) Hy. pose proof (growth_inv_le_1 k).
  apply Rmult_lt_0_compat; lra.
Qed.

Lemma rel_step k x y d : rel u k x y → Rabs d <= u → rel u (S k) (x * (1 + d)) y.
Proof.
  intros Hx Hd. replace (S k) with (k + 1)%nat by lia.
  replace y with (y * 1) by ring. apply rel_mul; [done|].
  replace (1 + d) with (1 * (1 + d)) by ring. by apply rel_round.
Qed.

Lemma rel_inv k a a' : rel u k a a' → rel u k (/ a) (/ a').
Proof.
  intros (r & -> & Hr). exists (/ r). split; [by rewrite Rinv_mult|].
  pose proof (growth_inv_le_1 k). pose proof (growth_pow_ge_1 k).
  split.
  - apply Rinv_le_contravar; lra.
  - rewrite <-(Rinv_inv (growth u ^ k)). apply Rinv_le_contravar; lra.
Qed.

Lemma rel_sqrt k a a' : 0 <= a' → rel u k a a' → rel u k (sqrt a) (sqrt a').
Proof.
  intros Ha (r & -> & Hr).
  pose proof (growth_inv_le_1 k). pose proof (growth_pow_ge_1 k).
  exists (sqrt r). split; [apply sqrt_mult; lra|]. split.
  - apply Rsqr_incr_0_var; [|apply sqrt_pos].
    rewrite Rsqr_sqrt by lra. unfold Rsqr. nra.
  - apply Rsqr_incr_0_var; [|lra].
    rewrite Rsqr_sqrt by lra. unfold Rsqr. nra.
Qed.

Lemma rel_weaken j k x y : (j ≤ k)%nat → rel u j x y → rel u k x y.
Proof.
  intros Hjk (r & -> & Hr). exists r. split; [done|].
  assert (growth u ^ j <= growth u ^ k) as Hle.
  { apply Rle_pow; [apply growth_ge_1|lia]. }
  pose proof (growth_inv_le_1 j). pose proof (growth_pow_ge_1 j).
  split; [|lra].
  apply Rle_trans with (/ growth u ^ j); [|lra].
  apply Rinv_le_contravar; lra.
Qed.

Lemma rel_factor k r :
  / growth u ^ k <= r <= growth u ^ k → Rabs (r - 1) <= tolerance u k.
Proof.
  intros Hr. unfold tolerance.
  pose proof (growth_inv_le_1 k) as Hi. pose proof (growth_pow_ge_1 k) as Hg.
  set (q := growth u ^ k) in *.
  assert (q * / q = 1) as Hq by (apply Rinv_r; lra).
  apply Rabs_le. split; [|lra].
  assert (2 <= q + / q) by nra. lra.
Qed.

Lemma rel_agrees k x y : rel u k x y → agrees u k x y.
Proof.
  intros (r & -> & Hr). unfold agrees.
  replace (y * r - y) with (y * (r - 1)) by ring.
  rewrite Rabs_mult, Rmult_comm.
  apply Rmult_le_compat_r; [apply Rabs_pos|]. by apply rel_factor.
Qed.

(** The sum of a perturbed product and an exact term, rounded once. *)
Lemma rel_offset k p p' b d :
  rel u k p p' → Rabs d <= u →
  Rabs ((- p + b) * (1 + d) - (b - p'))
  <= tolerance u (S k) * (Rabs b + Rabs p').
Proof.
  intros Hp Hd.
  assert (rel u (S k) (p * (1 + d)) p') as (r & Hr & Hrb).
  { replace (S k) with (k + 1)%nat by lia.
    replace p' with (p' * 1) by ring.
    apply rel_mul; [done|]. replace (1 + d) with (1 * (1 + d)) by ring.
    by apply rel_round. }
  replace ((- p + b) * (1 + d) - (b - p'))
    with (b * d - p' * (r - 1)) by (rewrite <-(Rmult_comm r) in Hr; nra).
  apply rel_factor in Hrb.
  assert (u <= tolerance u (S k)) as Hut.
  { unfold tolerance. simpl. pose proof (growth_pow_ge_1 k).
    pose proof growth_ge_1.
    assert (1 + u <= growth u).
    { unfold growth. apply (Rmult_le_reg_r (1 - u)); [lra|].
      unfold Rdiv. rewrite Rmult_assoc, Rinv_l by lra. nra. }
    nra. }
  eapply Rle_trans; [apply Rabs_triang|].
  rewrite Rabs_Ropp, !Rabs_mult.
  pose proof (Rabs_pos b). pose proof (Rabs_pos p').
  pose proof (Rabs_pos d). pose proof (Rabs_pos (r - 1)).
  nra.
Qed.

End rounding.

Section folded_arithmetic.
Context {F : Type} `{Float F}.

Lemma compute_scale_lookup (b : bool) (var gamma scale : list F) (eps : F) :
  length gamma = length var →
  compute_scale b var gamma eps = Ok scale →
  length scale = length var
  ∧ ∀ c v gm, var !! c = Some v → gamma !! c = Some gm →
      ∃ r, math_sqrt (f_add v eps) = Ok r
           ∧ scale !! c = Some (if b then f_mul (f_div f_one r) gm
                                else f_div f_one r).
Proof.
  intros Hlen. unfold compute_scale, vectorize_sqrt.
  destruct (match _ with [] => _ | _ => map_result math_sqrt _ end)
    as [root|e] eqn:Hroot; cbn; [|done].
  assert (map_result math_sqrt ((fun v => f_add v eps) <$> var) = Ok root)
    as Hmap.
  { destruct var; [done|exact Hroot]. }
  clear Hroot. apply map_result_lookup in Hmap as [Hrl Hroot].
  rewrite length_fmap in Hrl.
  assert (∀ c v, var !! c = Some v →
            ∃ r, math_sqrt (f_add v eps) = Ok r
                 ∧ (f_div f_one <$> root) !! c = Some (f_div f_one r)) as Hinv.
  { intros c v Hv. rewrite list_lookup_fmap.
    destruct (Hroot c (f_add v eps)) as (r & Hr & ->).
    { by rewrite list_lookup_fmap, Hv. }
    by exists r. }
  destruct b; intros [= <-].
  - split.
    + rewrite length_zip_with, length_fmap. lia.
    + intros c v gm Hv Hg. destruct (Hinv c v Hv) as (r & Hr & Hlook).
      exists r. split; [done|].
      by rewrite lookup_zip_with, Hlook; cbn; rewrite Hg.
  - split; [by rewrite length_fmap|]. intros c v gm Hv _. by apply Hinv.
Qed.

Lemma compute_offset_lookup (mean scale beta : list F) c mu s b :
  mean !! c = Some mu → scale !! c = Some s → beta !! c = Some b →
  compute_offset mean scale beta !! c = Some (f_add (f_mul (f_neg mu) s) b).
Proof.
  intros Hm Hs Hb. unfold compute_offset.
  rewrite !lookup_zip_with, list_lookup_fmap, Hm. cbn. rewrite Hs. cbn.
  by rewrite Hb.
Qed.

Lemma scale_weights_lookup (conv : @NodeDef F) (w : @ndarray F)
    (scale scaled : list F) s0 s1 s2 s3 :
  shape w = [s0; s1; s2; s3] →
  scale_weights conv w scale = Ok scaled →
  length scaled = length (values w)
  ∧ ∀ i0 i1 i2 i3 x, i0 < s0 → i1 < s1 → i2 < s2 → i3 < s3 →
      values w !! flat_index s1 s2 s3 i0 i1 i2 i3 = Some x →
      ∃ sc, scale !! output_channel conv s3 i2 i3 = Some sc
            ∧ scaled !! flat_index s1 s2 s3 i0 i1 i2 i3
              = Some (f_mul x sc).
Proof.
  intros Hshape. unfold scale_weights.
  destruct (values w) as [|x0 xs] eqn:Hvals; [done|]. rewrite <-Hvals.
  intros [Hlen Hall]%map_result_lookup.
  rewrite length_imap in Hlen. split; [done|].
  intros i0 i1 i2 i3 x H0 H1 H2 H3 Hx.
  destruct (Hall (flat_index s1 s2 s3 i0 i1 i2 i3)
              (flat_index s1 s2 s3 i0 i1 i2 i3, x)) as (y & Hy & Hlook).
  { by rewrite list_lookup_imap, Hx. }
  rewrite Hshape, unravel_rev_4 in Hy by done.
  unfold scale_index, output_channel in *.
  destruct (decide (op conv = "Conv2D")); cbn in Hy.
  - unfold index in Hy. destruct (scale !! i3) as [sc|]; cbn in Hy; [|done].
    injection Hy as <-. by exists sc.
  - unfold index in Hy.
    destruct (scale !! (i2 * s3 + i3)) as [sc|]; cbn in Hy; [|done].
    injection Hy as <-. by exists sc.
Qed.

Lemma scale_after_normalization_applied (node : @NodeDef F) :
  scale_after_normalization node = gamma_applied node.
Proof. done. Qed.

Section rounded.
Local Open Scope R_scope.
Context (to_R : F → R) (u : R) (Hmodel : standard_model to_R u).

(** The scale of one channel, as computed, against its closed form. *)
Lemma scale_rounded (b : bool) (v gm eps r : F) :
  0 < to_R v + to_R eps →
  math_sqrt (f_add v eps) = Ok r →
  rel u 4 (to_R (if b then f_mul (f_div f_one r) gm else f_div f_one r))
    ((if b then to_R gm else 1) / sqrt (to_R v + to_R eps)).
Proof.
  destruct Hmodel as (Hu & Hone & Hneg & Hadd & Hmul & Hdiv & Hsqrt).
  intros Hpos Hr.
  destruct (Hadd v eps) as (d1 & Hd1 & Hsum).
  destruct (Hsqrt _ _ Hr) as (Hnn & d2 & Hd2 & Hroot).
  assert (rel u 1 (to_R (f_add v eps)) (to_R v + to_R eps)) as Hrel1.
  { rewrite Hsum. apply rel_step; [done|apply rel_refl; done|done]. }
  assert (rel u 2 (to_R r) (sqrt (to_R v + to_R eps))) as Hrel2.
  { rewrite Hroot. apply rel_step; [done| |done].
    apply rel_sqrt; [done|lra|done]. }
  assert (0 < to_R r) as Hrpos.
  { apply (rel_pos u Hu 2 _ _ Hrel2). by apply sqrt_lt_R0. }
  destruct (Hdiv f_one r) as (d3 & Hd3 & Hinv); [lra|].
  assert (rel u 3 (to_R (f_div f_one r)) (1 / sqrt (to_R v + to_R eps)))
    as Hrel3.
  { rewrite Hinv, Hone. apply rel_step; [done| |done].
    unfold Rdiv. rewrite !Rmult_1_l. by apply rel_inv. }
  destruct b.
  - destruct (Hmul (f_div f_one r) gm) as (d4 & Hd4 & ->).
    apply rel_step; [done| |done].
    replace (to_R gm / sqrt (to_R v + to_R eps))
      with (1 / sqrt (to_R v + to_R eps) * to_R gm)
      by (unfold Rdiv; ring).
    replace 3%nat with (3 + 0)%nat by done.
    apply rel_mul; [done|done|by apply rel_refl].
  - apply (rel_weaken u Hu 3); [lia|done].
Qed.

End rounded.
End folded_arithmetic.

Section closed_form.
Context {F : Type} `{Float F}.
Implicit Types (g out : list (@NodeDef F)) (node : @NodeDef F)
               (m : @bn_match F).
Local Open Scope R_scope.

Lemma epsilon_attr_lookup node eps :
  is_batch_norm node = true →
  dict_get EPSILON_ATTR (op node) = Ok eps →
  attr_f (get_attr node eps) = variance_epsilon node.
Proof.
  unfold is_batch_norm, variance_epsilon.
  intros [Hop%bool_decide_eq_true|Hop%bool_decide_eq_true]%orb_prop;
    rewrite Hop; by intros [= <-].
Qed.


End closed_form.

Section real_examples.
Import RealExamples.
Local Open Scope R_scope.

Lemma math_sqrt_nonneg (x : R) : 0 <= x → math_sqrt x = Ok (sqrt x).
Proof. intros Hx. cbn. destruct (Rlt_dec x 0); [lra|done]. Qed.

Lemma real_match_valid : valid_match (graph_map real_graph) real_bn real_match.
Proof.
  split_and!; try done.
  - by exists "conv".
  - by exists "w".
  - exists 1%nat. split_and!; try done.
    + split_and!; try done. by exists "mean".
    + split_and!; try done. by exists "var".
    + split_and!; try done. by exists "beta".
    + split_and!; try done. by exists "gamma".
Qed.

Lemma real_folded_graph_computed :
  folded_ops real_bn real_match false = Ok real_folded_graph.
Proof.
  unfold folded_ops.
  change (dict_get EPSILON_ATTR (op real_bn)) with (@Ok string "epsilon").
  cbn [mbind result_bind Py.bind].
  change (compute_scale _ _ _ _) with
    (compute_scale true [4] [2] 0).
  unfold compute_scale, vectorize_sqrt. cbn [fmap list_fmap map_result f_add real].
  rewrite math_sqrt_nonneg by lra.
  reflexivity.
Qed.

Lemma real_graph_folded : do_transform real_graph = Ok real_folded_graph.
Proof.
  unfold do_transform, scan_graph.
  rewrite build_node_map_graph_map
    by (apply (bool_decide_unpack _); vm_compute; exact I).
  cbn [mbind result_bind Py.bind].
  set (node_map := graph_map real_graph).
  change (scan_nodes node_map real_graph) with
    (scan_nodes node_map [real_w; real_conv; real_gamma; real_beta;
                          real_mean; real_var; real_bn]).
  cbn [scan_nodes].
  repeat (rewrite scan_node_other by reflexivity;
          cbn [mbind result_bind Py.bind]).
  rewrite (scan_node_valid node_map real_bn real_match initial_state _ eq_refl
             real_match_valid real_folded_graph_computed).
  cbn [mbind result_bind Py.bind]. reflexivity.
Qed.

Lemma tolerance_exact k : tolerance 0 k = 0.
Proof.
  unfold tolerance, growth. replace ((1 + 0) / (1 - 0)) with 1 by field.
  rewrite pow1. ring.
Qed.

(** Exact arithmetic is the standard model without rounding. *)
Lemma real_standard_model : standard_model (fun x : R => x) 0.
Proof.
  assert (Rabs 0 <= 0) as H0 by (rewrite Rabs_R0; lra).
  split_and!.
  - lra.
  - lra.
  - reflexivity.
  - intros x. reflexivity.
  - intros x y. exists 0. split; [done|]. cbn. ring.
  - intros x y. exists 0. split; [done|]. cbn. ring.
  - intros x y _. exists 0. split; [done|]. cbn. ring.
  - intros x r. cbn. destruct (Rlt_dec x 0); [done|]. intros [= <-].
    split; [lra|]. exists 0. split; [done|]. ring.
Qed.


End real_examples.

(* ================================================================== *)
(** * Further properties of the two modules *)
(* ================================================================== *)

Section references.
Context {F : Type} `{Float F}.
Implicit Types (n node : @NodeDef F) (g : list (@NodeDef F))
               (node_map : gmap string (@NodeDef F)).

Lemma group_at_shorter t grp :
  group_at t = Some grp → String.length grp < String.length t.
Proof.
  revert grp. induction t as [|c t IH]; intros grp; [done|].
  rewrite group_at_cons.
  destruct (if Ascii.eqb c newline then None else group_at t) as [g'|] eqn:Hg.
  - intros [= <-]. destruct (Ascii.eqb c newline); [done|].
    apply IH in Hg. simpl. lia.
  - destruct (slot_suffix (String c t)); [|done]. intros [= <-]. simpl. lia.
Qed.

Lemma re_search_shorter t grp :
  re_search t = Some grp → String.length grp < String.length t.
Proof.
  induction t as [|c t IH]; [done|]. cbn [re_search].
  destruct (group_at (String c t)) as [g'|] eqn:Hg.
  - intros [= <-]. by apply group_at_shorter.
  - intros Hs%IH. simpl. lia.
Qed.

Lemma strip_marker_length s :
  String.length (strip_marker s) ≤ String.length s.
Proof.
  destruct s as [|c s]; [done|]. unfold strip_marker.
  destruct (Ascii.eqb_spec c "^"%char) as [->|Hne]; [simpl; lia|].
  destruct c as [[] [] [] [] [] [] [] []]; simpl; lia.
Qed.

(** A name that resolves to itself carries no marker and no port. *)
Lemma plain_name_inv s :
  node_name_from_input s = s → strip_marker s = s ∧ re_search s = None.
Proof.
  unfold node_name_from_input. intros Hs.
  pose proof (strip_marker_length s) as Hlen.
  destruct (re_search (strip_marker s)) as [grp|] eqn:Hg.
  - apply re_search_shorter in Hg. rewrite Hs in Hg. lia.
  - rewrite Hs in Hg. done.
Qed.

Lemma strip_marker_marked s : strip_marker ("^" +:+ s) = s.
Proof. done. Qed.

Lemma strip_marker_app s t :
  strip_marker s = s → s ≠ EmptyString → strip_marker (s +:+ t) = s +:+ t.
Proof.
  destruct s as [|c s]; [done|]. intros Hs _.
  rewrite append_cons. unfold strip_marker in *.
  destruct c as [[] [] [] [] [] [] [] []]; try done.
  exfalso. apply (f_equal String.length) in Hs. simpl in Hs. lia.
Qed.

(** X4.  Every way of referring to a node finds it.  In a graph with
    distinct names, a node whose name resolves to itself and holds no
    line feed is returned by [node_from_map] for its bare name, for the
    control-dependency form, and for both with an output port. *)
Theorem reference_finds_node g node_map n port :
  build_node_map g ∅ = Ok node_map →
  n ∈ g →
  node_name_from_input (name n) = name n →
  contains newline (name n) = false →
  port ≠ EmptyString → all_digits port = true →
  node_from_map node_map (name n) = Ok n
  ∧ node_from_map node_map ("^" +:+ name n) = Ok n
  ∧ node_from_map node_map (name n +:+ ":" +:+ port) = Ok n
  ∧ node_from_map node_map ("^" +:+ name n +:+ ":" +:+ port) = Ok n.
Proof.
  intros [Hnd ->]%build_node_map_inv Hin Hplain Hnl Hport Hdigits.
  pose proof (graph_map_lookup g n Hnd Hin) as Hlook.
  destruct (plain_name_inv _ Hplain) as [Hstrip Hsearch].
  assert (node_name_from_input ("^" +:+ name n) = name n) as Hmarked.
  { unfold node_name_from_input. by rewrite strip_marker_marked, Hsearch. }
  assert (node_name_from_input ("^" +:+ name n +:+ ":" +:+ port) = name n)
    as Hmarked_port.
  { unfold node_name_from_input. rewrite strip_marker_marked.
    by rewrite (re_search_group _ _ (group_at_slot _ _ Hnl Hport Hdigits)). }
  assert (node_name_from_input (name n +:+ ":" +:+ port) = name n) as Hported.
  { unfold node_name_from_input.
    assert (strip_marker (name n +:+ ":" +:+ port) = name n +:+ ":" +:+ port)
      as ->.
    { destruct (decide (name n = EmptyString)) as [->|Hne]; [done|].
      by apply strip_marker_app. }
    by rewrite (re_search_group _ _ (group_at_slot _ _ Hnl Hport Hdigits)). }
  unfold node_from_map.
  by rewrite Hplain, Hmarked, Hported, Hmarked_port, Hlook.
Qed.

(** X5.  On a graph with distinct node names the map-building loop of
    [do_transform] succeeds, and the map it builds has one entry per
    node: each node is stored under its own name and nothing else is
    stored. *)
Theorem distinct_names_build_map g :
  NoDup (name <$> g) →
  ∃ node_map,
    build_node_map g ∅ = Ok node_map
    ∧ size node_map = length g
    ∧ ∀ k n, node_map !! k = Some n ↔ n ∈ g ∧ name n = k.
Proof.
  intros Hnd. exists (graph_map g).
  split; [by apply build_node_map_graph_map|]. split.
  - unfold graph_map. rewrite <-(length_fmap (fun n => (name n, n)) g).
    apply map_size_list_to_map. by rewrite <-list_fmap_compose.
  - intros k n. split.
    + intros Hk. unfold graph_map in Hk. apply elem_of_list_to_map_2 in Hk.
      apply list_elem_of_fmap in Hk as (x & [= -> ->] & Hx). done.
    + intros [Hin <-]. by apply graph_map_lookup.
Qed.

(** X7.  A node whose own name ends in a colon and digits cannot be
    reached: a reference by its name is read as a reference to an output
    port of the node named by the text before the colon, so
    [node_from_map] never returns the node for its own name. *)
Theorem name_with_port_not_found g node_map n base port :
  build_node_map g ∅ = Ok node_map →
  n ∈ g →
  name n = base +:+ ":" +:+ port →
  contains newline base = false →
  port ≠ EmptyString → all_digits port = true →
  node_from_map node_map (name n) ≠ Ok n.
Proof.
  intros [Hnd ->]%build_node_map_inv Hin Hname Hnl Hport Hdigits.
  unfold node_from_map.
  destruct (graph_map g !! node_name_from_input (name n)) as [n'|] eqn:Hlook;
    [|done].
  intros [= ->]. unfold graph_map in Hlook.
  apply elem_of_list_to_map_2, list_elem_of_fmap in Hlook
    as (x & [= Hkey ->] & _).
  apply plain_name_inv in Hkey as [_ Hsearch].
  rewrite Hname in Hsearch.
  by rewrite (re_search_group _ _ (group_at_slot _ _ Hnl Hport Hdigits))
    in Hsearch.
Qed.

End references.

Section pass_bookkeeping.
Context {F : Type} `{Float F}.
Implicit Types (node : @NodeDef F) (g nodes : list (@NodeDef F))
               (node_map : gmap string (@NodeDef F)) (st : @scan_state F).

Lemma folded_ops_shape node m refolded ops :
  folded_ops node m refolded = Ok ops →
  length ops = 4
  ∧ Forall (fun n => op n = "Const" ∨ op n = "BiasAdd"
                     ∨ is_convolution n = is_convolution (conv_op m)) ops.
Proof.
  unfold folded_ops.
  destruct (dict_get _ _); cbn; [|done].
  destruct (compute_scale _ _ _ _); cbn; [|done].
  destruct (scale_weights _ _ _); cbn; [|done].
  intros [= <-]. split; [done|].
  repeat first [apply Forall_nil_2 | apply Forall_cons_2];
    [by left | right; right; by destruct refolded | by left
    | by right; left].
Qed.

(** What one scan step adds to each part of the state. *)
Lemma scan_node_step node_map node st st' :
  scan_node node_map node st = Ok st' →
  (is_batch_norm node = false ∧ st' = st)
  ∨ (is_batch_norm node = true
     ∧ ∃ w, validation_failure node_map node w ∧ st' = warn w st)
  ∨ (is_batch_norm node = true
     ∧ ∃ m ops refolded,
         valid_match node_map node m
         ∧ folded_ops node m refolded = Ok ops
         ∧ st' = {| nodes_to_skip := nodes_to_skip st ∪ matched_names node m;
                    new_ops := new_ops st ++ ops; log := log st |}).
Proof.
  unfold scan_node. destruct (is_batch_norm node); cbn.
  - destruct (match_candidate node_map node) as [[w|m]|e] eqn:Hm; cbn; [| |done].
    + intros [= <-]. right. left. split; [done|]. exists w.
      split; [|done]. by apply match_candidate_skip_inv.
    + unfold fold_match.
      destruct (folded_ops node m _) as [ops|e] eqn:Hops; cbn; [|done].
      intros [= <-]. right. right. split; [done|].
      eexists m, ops, _. split; [|done]. by apply match_candidate_valid_inv.
  - intros [= <-]. by left.
Qed.

Lemma scan_nodes_accounting node_map nodes st st' :
  scan_nodes node_map nodes st = Ok st' →
  length (new_ops st') + 4 * length (log st')
  = length (new_ops st) + 4 * length (log st)
    + 4 * length (filter (fun n => is_batch_norm n = true) nodes).
Proof.
  revert st. induction nodes as [|n nodes IH]; intros st Hs; simpl in Hs.
  - injection Hs as <-. simpl. lia.
  - destruct (scan_node node_map n st) as [st1|e] eqn:Hn; cbn in Hs; [|done].
    apply IH in Hs as Hrest. rewrite Hrest.
    destruct (scan_node_step _ _ _ _ Hn)
      as [[Hbn ->]|[[Hbn (w & _ & ->)]|[Hbn (m & ops & b & _ & Hops & ->)]]].
    + rewrite filter_cons_False by (by rewrite Hbn). lia.
    + rewrite filter_cons_True by done. cbn [warn log new_ops length].
      rewrite length_app. cbn [length]. lia.
    + rewrite filter_cons_True by done. cbn [log new_ops length].
      rewrite length_app.
      apply folded_ops_shape in Hops as [-> _]. lia.
Qed.

(** X1.  When [do_transform] succeeds, every batch-norm node of the
    input is accounted for: the output is a sublist of the input followed
    by the created ops, and each batch-norm node has contributed either
    four created ops or one warning. *)
Theorem every_candidate_folded_or_warned g out warnings :
  do_transform g = Ok out →
  do_transform_log g = Ok warnings →
  ∃ kept created folded,
    out = kept ++ created
    ∧ kept `sublist_of` g
    ∧ length created = 4 * folded
    ∧ folded + length warnings
      = length (filter (fun n => is_batch_norm n = true) g).
Proof.
  unfold do_transform, do_transform_log.
  destruct (scan_graph g) as [st|e] eqn:Hscan; cbn; [|done].
  intros [= <-] [= <-]. unfold scan_graph in Hscan.
  destruct (build_node_map g ∅) as [m|e]; cbn in Hscan; [|done].
  apply scan_nodes_accounting in Hscan. simpl in Hscan.
  exists (filter (fun n => name n ∉ nodes_to_skip st) g), (new_ops st),
    (length (filter (fun n => is_batch_norm n = true) g) - length (log st)).
  split_and!; [done|apply sublist_filter|lia|lia].
Qed.

Lemma scan_nodes_skip_set node_map nodes st st' :
  scan_nodes node_map nodes st = Ok st' →
  ∀ x, x ∈ nodes_to_skip st' ↔
       x ∈ nodes_to_skip st
       ∨ ∃ bn m, bn ∈ nodes ∧ is_batch_norm bn = true
                 ∧ valid_match node_map bn m ∧ x ∈ matched_names bn m.
Proof.
  revert st. induction nodes as [|n nodes IH]; intros st; simpl.
  - intros [= <-] x. split; [by left|].
    intros [?|(bn & m & Hbn & _)]; [done|]. by apply elem_of_nil in Hbn.
  - destruct (scan_node node_map n st) as [st1|e] eqn:Hn; cbn; [|done].
    intros Hrest x. rewrite (IH _ Hrest x).
    assert (x ∈ nodes_to_skip st1 ↔
            x ∈ nodes_to_skip st
            ∨ ∃ m, is_batch_norm n = true ∧ valid_match node_map n m
                   ∧ x ∈ matched_names n m) as ->.
    { destruct (scan_node_step _ _ _ _ Hn)
        as [[Hbn ->]|[[Hbn (w & Hw & ->)]|[Hbn (m & ops & b & Hm & _ & ->)]]].
      - split; [by left|]. intros [?|(m & ? & _)]; [done|congruence].
      - simpl. split; [by left|]. intros [?|(m & _ & Hm & _)]; [done|].
        apply match_candidate_valid in Hm.
        apply match_candidate_failure in Hw. congruence.
      - simpl. rewrite elem_of_union. split.
        + intros [?|?]; [by left|]. right. by exists m.
        + intros [?|(m' & _ & Hm' & Hx)]; [by left|]. right.
          apply match_candidate_valid in Hm, Hm'. congruence. }
    split.
    + intros [[?|(m & ? & ? & ?)]|(bn & m & Hin & ? & ? & ?)].
      * by left.
      * right. exists n, m. split_and!; try done. by left.
      * right. exists bn, m. split_and!; try done. by right.
    + intros [?|(bn & m & [->|Hin]%elem_of_cons & ? & ? & ?)].
      * by left; left.
      * left. right. by exists m.
      * right. by exists bn, m.
Qed.

Lemma scan_nodes_new_ops_kinds node_map nodes st st' :
  scan_nodes node_map nodes st = Ok st' →
  Forall (fun n => is_batch_norm n = false) (new_ops st) →
  Forall (fun n => is_batch_norm n = false) (new_ops st').
Proof.
  revert st. induction nodes as [|n nodes IH]; intros st; simpl.
  - by intros [= <-].
  - destruct (scan_node node_map n st) as [st1|e] eqn:Hn; cbn; [|done].
    intros Hrest Hst. apply (IH _ Hrest).
    destruct (scan_node_step _ _ _ _ Hn)
      as [[Hbn ->]|[[Hbn (w & _ & ->)]|[Hbn (m & ops & b & Hm & Hops & ->)]]];
      try done.
    simpl. apply Forall_app. split; [done|].
    destruct Hm as (_ & Hconv & _).
    apply folded_ops_shape in Hops as [_ Hkinds].
    eapply Forall_impl; [exact Hkinds|]. intros x Hx. simpl in Hx.
    unfold is_batch_norm, is_convolution in *.
    destruct Hx as [Hx|[Hx|Hx]].
    + rewrite Hx. done.
    + rewrite Hx. done.
    + rewrite Hconv in Hx. apply orb_prop in Hx as [Hx|Hx];
        apply bool_decide_eq_true in Hx; rewrite Hx; done.
Qed.

(** X2.  What [do_transform] removes and what it creates.  The output
    is the input nodes that survive, in their order, followed by the new
    ops; an input node is dropped exactly when a batch-norm node with a
    valid match names it (as itself, its convolution, the weights or a
    parameter); and no new op is a batch-norm node. *)
Theorem dropped_exactly_when_matched g out :
  do_transform g = Ok out →
  ∃ kept created,
    out = kept ++ created
    ∧ kept `sublist_of` g
    ∧ (∀ n, n ∈ g →
         (n ∈ kept ↔
          ¬ ∃ bn m, bn ∈ g ∧ is_batch_norm bn = true
                    ∧ valid_match (graph_map g) bn m
                    ∧ name n ∈ matched_names bn m))
    ∧ Forall (fun n => is_batch_norm n = false) created.
Proof.
  unfold do_transform. destruct (scan_graph g) as [st|e] eqn:Hscan; cbn; [|done].
  intros [= <-]. unfold scan_graph in Hscan.
  destruct (build_node_map g ∅) as [m|e] eqn:Hm; cbn in Hscan; [|done].
  apply build_node_map_inv in Hm as [_ ->].
  exists (filter (fun n => name n ∉ nodes_to_skip st) g), (new_ops st).
  split_and!.
  - done.
  - apply sublist_filter.
  - intros n Hn. rewrite list_elem_of_filter.
    rewrite (scan_nodes_skip_set _ _ _ _ Hscan (name n)). simpl.
    split.
    + intros [Hno _] Hex. apply Hno. by right.
    + intros Hno. split; [|done]. intros [?%not_elem_of_empty|?]; [done|].
      by apply Hno.
  - by apply (scan_nodes_new_ops_kinds _ _ _ _ Hscan).
Qed.

Lemma scan_nodes_no_candidates node_map nodes st :
  Forall (fun n => is_batch_norm n = false) nodes →
  scan_nodes node_map nodes st = Ok st.
Proof.
  induction 1 as [|n nodes Hn _ IH]; simpl; [done|].
  rewrite (scan_node_other _ _ _ Hn). cbn. apply IH.
Qed.

Lemma scan_nodes_no_warning node_map nodes st st' :
  scan_nodes node_map nodes st = Ok st' →
  ∃ ws, log st' = log st ++ ws
        ∧ (ws = [] → ∀ n, n ∈ nodes → is_batch_norm n = true →
                          name n ∈ nodes_to_skip st').
Proof.
  revert st. induction nodes as [|n nodes IH]; intros st Hs; simpl in Hs.
  - injection Hs as <-. exists []. rewrite app_nil_r. split; [done|].
    intros _ n Hn. by apply elem_of_nil in Hn.
  - destruct (scan_node node_map n st) as [st1|e] eqn:Hn; cbn in Hs; [|done].
    destruct (IH _ Hs) as (ws & Hlog & Hall).
    destruct (scan_nodes_grows _ _ _ _ Hs) as [Hsub _].
    destruct (scan_node_step _ _ _ _ Hn)
      as [[Hbn ->]|[[Hbn (w & _ & ->)]|[Hbn (m & ops & b & _ & _ & ->)]]].
    + exists ws. split; [done|]. intros Hws x [->|Hx]%elem_of_cons Hx';
        [congruence|by apply Hall].
    + exists (w :: ws). simpl in Hlog. rewrite <-app_assoc in Hlog.
      split; [done|]. done.
    + exists ws. split; [done|]. intros Hws x [->|Hx]%elem_of_cons Hx';
        [|by apply Hall].
      apply Hsub. simpl. unfold matched_names.
      rewrite !elem_of_union, !elem_of_singleton. tauto.
Qed.

(** X6.  A second run finds nothing left to do.  When [do_transform]
    folded every batch-norm node it met (it logged no warning) and the
    names in its output are distinct, running it on that output returns
    the same graph, again without a warning. *)
Theorem second_pass_changes_nothing g out :
  do_transform g = Ok out →
  do_transform_log g = Ok [] →
  NoDup (name <$> out) →
  do_transform out = Ok out ∧ do_transform_log out = Ok [].
Proof.
  unfold do_transform at 1, do_transform_log at 1.
  destruct (scan_graph g) as [st|e] eqn:Hscan; cbn; [|done].
  intros [= <-] [= Hlog] Hnd. unfold scan_graph in Hscan.
  destruct (build_node_map g ∅) as [m|e]; cbn in Hscan; [|done].
  assert (Forall (fun n => is_batch_norm n = false) (result_graph g st))
    as Hnone.
  { unfold result_graph. apply Forall_app. split.
    - destruct (scan_nodes_no_warning _ _ _ _ Hscan) as (ws & Hws & Hall).
      simpl in Hws. rewrite Hlog in Hws. symmetry in Hws.
      apply Forall_forall. intros n [Hskip Hin]%list_elem_of_filter.
      destruct (is_batch_norm n) eqn:Hbn; [|done].
      exfalso. by apply Hskip, Hall.
    - by apply (scan_nodes_new_ops_kinds _ _ _ _ Hscan). }
  unfold do_transform, do_transform_log, scan_graph.
  rewrite (build_node_map_graph_map _ Hnd). cbn.
  rewrite (scan_nodes_no_candidates _ _ _ Hnone). cbn.
  split; [|done]. f_equal. unfold result_graph at 1. simpl.
  rewrite app_nil_r. apply filter_all. intros x _. apply not_elem_of_empty.
Qed.

Lemma scan_nodes_raises node_map nodes node :
  node ∈ nodes →
  (∀ st, is_raise (scan_node node_map node st)) →
  ∀ st, is_raise (scan_nodes node_map nodes st).
Proof.
  intros Hin Hraise. induction nodes as [|n nodes IH]; intros st.
  - by apply elem_of_nil in Hin.
  - simpl. apply elem_of_cons in Hin as [<-|Hin].
    + specialize (Hraise st). by destruct (scan_node node_map node st).
    + destruct (scan_node node_map n st) as [st1|e]; [|done]. cbn.
      by apply IH.
Qed.

(** X8.  A batch-norm node whose first operand names no node of the
    graph is not skipped with a warning: the lookup error ends the whole
    pass, and no graph is returned. *)
Theorem dangling_reference_aborts g bn ref :
  NoDup (name <$> g) →
  bn ∈ g → is_batch_norm bn = true →
  operand bn "conv_op" = Ok ref →
  graph_map g !! node_name_from_input ref = None →
  ∃ e, do_transform g = Raise e ∧ do_transform_log g = Raise e.
Proof.
  intros Hnd Hin Hbn Hop Hnone. unfold do_transform, do_transform_log, scan_graph.
  rewrite (build_node_map_graph_map g Hnd). cbn.
  assert (∀ st, is_raise (scan_node (graph_map g) bn st)) as Hbad.
  { intros st. unfold scan_node. rewrite Hbn. cbn.
    unfold match_candidate. rewrite Hop. cbn.
    unfold node_from_map. by rewrite Hnone. }
  pose proof (scan_nodes_raises (graph_map g) g bn Hin Hbad initial_state)
    as Hraise.
  destruct (scan_nodes (graph_map g) g initial_state) as [st|e]; [done|].
  by exists e.
Qed.

End pass_bookkeeping.

Section bounds.
Context {F : Type} `{Float F}.
Implicit Types (node : @NodeDef F) (w : @ndarray F)
               (node_map : gmap string (@NodeDef F)).

Lemma rev_is_reverse {A} (l : list A) : rev l = reverse l.
Proof. unfold reverse. apply rev_alt. Qed.

Lemma unravel_rev_bounds rs i :
  Forall (fun s => 0 < s) rs →
  Forall2 (fun v s => v < s) (unravel_rev rs i) rs.
Proof.
  intros Hpos. revert i. induction Hpos as [|s rs Hs _ IH]; intros i; simpl.
  - constructor.
  - constructor; [|apply IH]. apply Nat.mod_upper_bound. lia.
Qed.

(** Every component of a multi-index lies within its axis. *)
Lemma multi_index_bounds shp i :
  Forall (fun s => 0 < s) shp →
  Forall2 (fun v s => v < s) (multi_index shp i) shp.
Proof.
  intros Hpos. unfold multi_index. rewrite !rev_is_reverse.
  rewrite <-(reverse_involutive shp) at 2. apply Forall2_reverse.
  apply unravel_rev_bounds. by apply Forall_reverse.
Qed.

Lemma product_positive (l : list nat) :
  foldr Nat.mul 1 l ≠ 0 → Forall (fun s => 0 < s) l.
Proof.
  induction l as [|s l IH]; simpl; [constructor|].
  intros Hp. constructor; [|apply IH]; nia.
Qed.

Lemma map_result_total {A B} (f : A → result B) (l : list A) :
  Forall (fun x => ∃ y, f x = Ok y) l → ∃ l', map_result f l = Ok l'.
Proof.
  induction 1 as [|x l [y Hy] _ [l' IH]]; simpl.
  - by eexists.
  - rewrite Hy, IH. cbn. by eexists.
Qed.

Lemma map_result_length {A B} (f : A → result B) (l : list A) l' :
  map_result f l = Ok l' → length l' = length l.
Proof. by intros [? _]%map_result_lookup. Qed.

Lemma compute_scale_total (b : bool) (var gamma : list F) (eps : F) :
  var ≠ [] → length gamma = length var →
  Forall (fun v => ∃ r, math_sqrt (f_add v eps) = Ok r) var →
  ∃ scale, compute_scale b var gamma eps = Ok scale
           ∧ length scale = length var.
Proof.
  intros Hne Hlen Hsqrt. unfold compute_scale, vectorize_sqrt.
  destruct (map_result_total math_sqrt ((fun v => f_add v eps) <$> var))
    as [root Hroot].
  { by apply Forall_fmap. }
  pose proof (map_result_length _ _ _ Hroot) as Hrl.
  rewrite length_fmap in Hrl.
  destruct var as [|v var]; [done|]. rewrite fmap_cons in *.
  rewrite Hroot. cbn. destruct b; (eexists; split; [reflexivity|]).
  - rewrite length_zip_with, length_fmap. simpl in *. lia.
  - by rewrite length_fmap.
Qed.

Lemma scale_weights_total (conv : @NodeDef F) w (scale : list F) cc :
  is_convolution conv = true →
  values w ≠ [] →
  length (values w) = foldr Nat.mul 1 (shape w) →
  channel_count_of conv w = Ok cc →
  length scale = cc →
  ∃ scaled, scale_weights conv w scale = Ok scaled.
Proof.
  intros Hconv Hne Hlen Hcc Hscale. unfold scale_weights.
  destruct (values w) as [|x0 xs] eqn:Hvals; [done|]. rewrite <-Hvals.
  assert (Forall (fun s => 0 < s) (shape w)) as Hpos.
  { apply product_positive. by rewrite <-Hlen. }
  apply map_result_total, Forall_lookup_2. intros pos [i x] _.
  pose proof (multi_index_bounds (shape w) i Hpos) as Hmi.
  assert (∀ k s, shape w !! k = Some s →
            ∃ v, multi_index (shape w) i !! k = Some v ∧ v < s) as Hax.
  { intros k s Hs. by apply (Forall2_lookup_r _ _ _ _ _ Hmi). }
  clear Hmi. unfold scale_index, channel_count_of, index in *.
  destruct (decide (op conv = "Conv2D")).
  - destruct (shape w !! 3) as [s3|] eqn:Hs3; [|done]. injection Hcc as <-.
    destruct (Hax 3 s3 Hs3) as (i3 & Hi3 & Hlt).
    destruct (lookup_lt_is_Some_2 scale i3) as [sc Hsc]; [lia|].
    rewrite Hi3. cbn. rewrite Hsc. cbn. by eexists.
  - destruct (shape w !! 2) as [s2|] eqn:Hs2; cbn in Hcc; [|done].
    destruct (shape w !! 3) as [s3|] eqn:Hs3; cbn in Hcc; [|done].
    injection Hcc as <-.
    destruct (Hax 2 s2 Hs2) as (i2 & Hi2 & Hlt2).
    destruct (Hax 3 s3 Hs3) as (i3 & Hi3 & Hlt3).
    destruct (lookup_lt_is_Some_2 scale (i2 * s3 + i3)) as [sc Hsc]; [nia|].
    cbn. rewrite Hi2. cbn. rewrite Hi3. cbn. rewrite Hsc. cbn. by eexists.
Qed.

Lemma epsilon_attr_total node :
  is_batch_norm node = true →
  ∃ eps, dict_get EPSILON_ATTR (op node) = Ok eps
         ∧ attr_f (get_attr node eps) = variance_epsilon node.
Proof.
  unfold is_batch_norm, variance_epsilon.
  intros [Hop%bool_decide_eq_true|Hop%bool_decide_eq_true]%orb_prop;
    rewrite Hop; by eexists.
Qed.

(** X3.  Folding a match that passed validation cannot fail on an
    index or a key: whatever the rank of the weights (validation ensures
    it is at least four), every multi-index component lies within its
    axis and every scale index within the scale vector.  With a non-empty
    weight tensor and square roots that are defined, the four ops are
    produced. *)
Theorem valid_match_folds node_map node m refolded :
  is_batch_norm node = true →
  valid_match node_map node m →
  values (weights m) ≠ [] →
  Forall (fun v => ∃ r, math_sqrt (f_add v (variance_epsilon node)) = Ok r)
         (values (var_value m)) →
  ∃ scaled_weights_op new_conv_op offset_op bias_add_op,
    folded_ops node m refolded
    = Ok [scaled_weights_op; new_conv_op; offset_op; bias_add_op].
Proof.
  intros Hbn (_ & Hconv & _ & _ & Hw & cc & Hcc & Hmean & Hvar & Hbeta & Hgamma)
    Hne Hsqrt.
  apply values_from_const_length in Hw.
  apply param_passes_length in Hvar, Hgamma.
  assert (cc ≠ 0) as Hcc0.
  { intros ->. apply Hne, length_zero_iff_nil. rewrite Hw.
    unfold channel_count_of, index in Hcc. clear -Hcc.
    destruct (shape (weights m)) as [|s0 [|s1 [|s2 [|s3 r]]]];
      try (by case_decide).
    simpl in *. case_decide; simplify_eq/=; nia. }
  unfold folded_ops.
  destruct (epsilon_attr_total node Hbn) as (eps & -> & Heps). cbn.
  rewrite Heps.
  destruct (compute_scale_total (scale_after_normalization node)
              (values (var_value m)) (values (gamma_value m))
              (variance_epsilon node)) as (scale & -> & Hsl); try done.
  { intros Hnil. rewrite Hnil in Hvar. simpl in Hvar. lia. }
  { lia. }
  cbn.
  destruct (scale_weights_total (conv_op m) (weights m) scale cc)
    as [scaled ->]; try done; [lia|].
  cbn. by eexists _, _, _, _.
Qed.

End bounds.

Section reader.
Import GraphConverter GraphConverter.OutputGrabber.

(** X9.  The reader loop of [OutputGrabber] ends at the first read that
    is empty or ends with the escape character, wherever it comes in the
    stream: the captured text is what was captured before plus the reads
    that precede that one, the read itself is dropped whole, and nothing
    after it is looked at.  The loop ends only if there is such a
    read. *)
Theorem reader_stops_at_first_escape (reads : list string)
    (captured text : string) :
  readOutput_reads reads captured = Some text
  ↔ ∃ kept final rest,
      reads = kept ++ final :: rest
      ∧ Forall (fun r => stops r = false) kept
      ∧ stops final = true
      ∧ text = foldl String.append captured kept.
Proof.
  revert captured. induction reads as [|r reads IH]; intros captured; simpl.
  - split; [done|]. intros (kept & final & rest & Hr & _). by destruct kept.
  - destruct (stops r) eqn:Hr.
    + split.
      * intros [= <-]. exists [], r, reads. by repeat split.
      * intros (kept & final & rest & Heq & Hkept & _ & ->).
        destruct kept as [|k kept]; [done|].
        injection Heq as <- _. apply Forall_cons in Hkept as [Hk _]. congruence.
    + rewrite IH. split.
      * intros (kept & final & rest & -> & Hkept & Hfinal & ->).
        exists (r :: kept), final, rest. split_and!; try done.
        by constructor.
      * intros (kept & final & rest & Heq & Hkept & Hfinal & ->).
        destruct kept as [|k kept].
        { injection Heq as <- _. congruence. }
        injection Heq as <- ->. apply Forall_cons in Hkept as [_ Hkept].
        by exists kept, final, rest.
Qed.

End reader.

Section records.
Import GraphConverter.

Lemma positions_length c from s : length (positions c from s) = count c s.
Proof.
  revert from. induction s as [|d s IH]; intros from; simpl; [done|].
  destruct (Ascii.eqb d c); simpl; by rewrite IH.
Qed.

Lemma every_other_length {A} (l : list A) k :
  length l = 2 * k → length (every_other l) = k.
Proof.
  revert l. induction k as [|k IH]; intros l Hl.
  - by destruct l.
  - destruct l as [|x [|y l]]; simpl in *; try lia.
    f_equal. apply IH. lia.
Qed.

Lemma records_between_length s idx :
  length (records_between s idx) = length idx - 1.
Proof.
  induction idx as [|v [|n idx] IH]; simpl in *; try done.
  rewrite IH. lia.
Qed.

Lemma positions_lookup c s from i p :
  positions c from s !! i = Some p →
  from ≤ p
  ∧ String.get (p - from) s = Some c
  ∧ count c (String.substring 0 (p - from) s) = i.
Proof.
  revert from i. induction s as [|d s IH]; intros from i; simpl; [done|].
  destruct (Ascii.eqb_spec d c) as [->|Hne].
  - destruct i as [|i]; simpl.
    + intros [= <-]. rewrite Nat.sub_diag. done.
    + intros Hp. destruct (IH _ _ Hp) as (Hle & Hget & Hcount).
      replace (p - from) with (S (p - S from)) by lia. simpl.
      rewrite Ascii.eqb_refl. split_and!; [lia|done|by rewrite Hcount].
  - intros Hp. destruct (IH _ _ Hp) as (Hle & Hget & Hcount).
    replace (p - from) with (S (p - S from)) by lia. simpl.
    apply Ascii.eqb_neq in Hne. rewrite Hne. split_and!; [lia|done|done].
Qed.

Lemma every_other_lookup {A} (l : list A) j :
  every_other l !! j = l !! (2 * j).
Proof.
  revert l. induction j as [|j IH]; intros l.
  - by destruct l as [|x [|y l]].
  - destruct l as [|x [|y l]]; try done.
    replace (2 * S j) with (S (S (2 * j))) by lia. simpl. apply IH.
Qed.

Lemma records_between_lookup s idx j a b :
  idx !! j = Some a → idx !! S j = Some b →
  records_between s idx !! j
  = Some (strip (slice s a b) +:+ String newline "").
Proof.
  revert j. induction idx as [|v [|n idx] IH]; intros j Ha Hb.
  - by destruct j.
  - destruct j as [|[|j]]; simpl in *; done.
  - destruct j as [|j]; simpl in *.
    + by simplify_eq.
    + by apply IH.
Qed.

(** X10.  [_parse_output] on a text with [2 * k] semicolons: with
    [k = 0] the delimiter check passes and the last step raises
    [IndexError]; otherwise exactly [k] records are appended after the
    entries that [output_data] held.  Record [j] starts at the semicolon
    that has [2 * j] semicolons before it and runs to the start of the
    next record, or to the end of the text: it is that piece of the
    text, stripped, followed by a line feed. *)
Theorem parse_output_records (input_data : string)
    (output_data : list string) (k : nat) :
  count semicolon input_data = 2 * k →
  if decide (k = 0)
  then _parse_output input_data output_data = Raise IndexError
  else ∃ (starts : list nat) (records : list string),
         _parse_output input_data output_data = Ok (output_data ++ records)
         ∧ length starts = k
         ∧ length records = k
         ∧ ∀ j a, starts !! j = Some a →
             String.get a input_data = Some semicolon
             ∧ count semicolon (String.substring 0 a input_data) = 2 * j
             ∧ records !! j
               = Some (strip (slice input_data a
                                (default (String.length input_data)
                                         (starts !! S j)))
                       +:+ String newline "").
Proof.
  intros Hk. unfold _parse_output.
  destruct (decide (count semicolon input_data `mod` 2 = 0)) as [_|Hodd].
  2:{ exfalso. apply Hodd. rewrite Hk, Nat.mul_comm. apply Nat.Div0.mod_mul. }
  set (starts := every_other (positions semicolon 0 input_data)).
  assert (length starts = k) as Hlen.
  { apply every_other_length. by rewrite positions_length. }
  assert (∀ j a, starts !! j = Some a →
            String.get a input_data = Some semicolon
            ∧ count semicolon (String.substring 0 a input_data) = 2 * j)
    as Hstarts.
  { intros j a Ha. unfold starts in Ha. rewrite every_other_lookup in Ha.
    apply positions_lookup in Ha as (_ & Hget & Hcount).
    by rewrite Nat.sub_0_r in Hget, Hcount. }
  destruct (decide (k = 0)) as [->|Hk0].
  - apply length_zero_iff_nil in Hlen. by rewrite Hlen.
  - destruct (last starts) as [final|] eqn:Hlast.
    2:{ apply last_None in Hlast. rewrite Hlast in Hlen. done. }
    exists starts, (records_between input_data starts
                    ++ [strip (slice_from input_data final)
                        +:+ String newline ""]).
    split; [by rewrite app_assoc|]. split; [done|]. split.
    { rewrite length_app, records_between_length. simpl. lia. }
    intros j a Ha. destruct (Hstarts j a Ha) as [Hget Hcount].
    split; [done|]. split; [done|].
    destruct (starts !! S j) as [b|] eqn:Hb; simpl.
    + rewrite lookup_app_l.
      * by apply records_between_lookup.
      * rewrite records_between_length. apply lookup_lt_Some in Hb. lia.
    + apply lookup_ge_None in Hb. apply lookup_lt_Some in Ha as Hj.
      assert (j = length starts - 1) as -> by lia.
      rewrite last_lookup in Hlast.
      replace (Init.Nat.pred (length starts)) with (length starts - 1)
        in Hlast by lia.
      assert (final = a) as -> by congruence.
      rewrite lookup_app_r by (rewrite records_between_length; lia).
      rewrite records_between_length, Nat.sub_diag. done.
Qed.

End records.

Section converter_outcomes.
Import GraphConverter.
Context {F : Type} `{Float F}.
Implicit Types (c : @converter F) (env : @collaborators F)
               (g : @GraphDef F).

Lemma quantize_finally_inv env c :
  ∃ c', (debug c' = false → files c' !! _int8_logged_graph c' = None)
        ∧ tmp_graph c' = tmp_graph c
        ∧ error_log c' = error_log c
        ∧ match tmp_graph c' with
          | None => quantize_finally env c = Throw TypeError c'
          | Some g =>
              match import_graph_def env g with
              | Ok graph => quantize_finally env c = Return graph c'
              | Raise e => quantize_finally env c = Throw e c'
              end
          end.
Proof.
  unfold quantize_finally, seq, when.
  destruct (debug c) eqn:Hd; cbn [negb]; [|unfold _post_clean].
  - exists c. split; [congruence|]. split; [done|]. split; [done|].
    destruct (tmp_graph c) as [g|]; [|done].
    by destruct (import_graph_def env g).
  - exists (set_files (delete (_int8_logged_graph c) (files c)) c). split.
    { intros _. simpl. apply lookup_delete_eq. }
    split; [done|]. split; [done|].
    change (tmp_graph (set_files (delete (_int8_logged_graph c) (files c)) c))
      with (tmp_graph c).
    destruct (tmp_graph c) as [g|]; [|done].
    by destruct (import_graph_def env g).
Qed.

(** X11.  However the quantization stages go, [quantize] ends in its
    [finally] clause: it returns the graph imported from the message
    [_tmp_graph_def] refers to, or raises what that import raises (a
    [TypeError] when there is no message), never anything else; and
    unless [debug] is set, no logged-graph file is left behind. *)
Theorem quantize_always_cleans_up env c :
  ∃ c',
    ((∃ graph g, quantize env c = Return graph c'
                 ∧ tmp_graph c' = Some g
                 ∧ import_graph_def env g = Ok graph)
     ∨ (∃ e, quantize env c = Throw e c'
             ∧ (tmp_graph c' = None ∧ e = TypeError
                ∨ ∃ g, tmp_graph c' = Some g
                       ∧ import_graph_def env g = Raise e)))
    ∧ (debug c' = false → files c' !! _int8_logged_graph c' = None).
Proof.
  unfold quantize, try_except_finally.
  set (pending := match quantize_body env c with
                  | Throw e0 s' => quantize_handler e0 s'
                  | o => o end).
  destruct (quantize_finally_inv env (state_of pending))
    as (c' & Hclean & _ & _ & Hout).
  exists c'. split; [|done].
  destruct (tmp_graph c') as [g|] eqn:Hg.
  - destruct (import_graph_def env g) as [graph|e] eqn:Hi; rewrite Hout.
    + left. by exists graph, g.
    + right. exists e. split; [done|]. right. by exists g.
  - rewrite Hout. right. exists TypeError. split; [done|]. by left.
Qed.


(** X12.  When the first logging insertion raises, [_insert_logging]
    raises the same exception and does not restore the graph:
    [_tmp_graph_def] still refers to the same message, which is left as
    the failed insertion left it, and no file is written. *)
Theorem insert_logging_failure_keeps_instrumented env c l g e g1 :
  _tmp_graph_def c = Some l →
  heap c !! l = Some g →
  InsertLogging env ["RequantizationRange"; "RequantizationRangePerChannel"]
    "__requant_min_max:" g = Throw e g1 →
  ∃ c', _insert_logging env c = Throw e c'
        ∧ _tmp_graph_def c' = Some l
        ∧ heap c' !! l = Some g1
        ∧ files c' = files c
        ∧ error_log c' = error_log c.
Proof.
  intros Htmp Hl H1.
  set (l0 := fresh (dom (heap c))).
  assert (l0 ≠ l) as Hfresh.
  { intros Heq. apply (is_fresh (dom (heap c))). fold l0. rewrite Heq.
    apply elem_of_dom. by eexists. }
  unfold _insert_logging. fold l0.
  set (c0 := set_heap (<[l0 := []]> (heap c)) c).
  assert (_tmp_graph_def c0 = Some l) as Htmp0 by done.
  rewrite Htmp0.
  erewrite seq_normal; cycle 1.
  { unfold CopyFrom. cbn. rewrite lookup_insert_ne by done. by rewrite Hl. }
  unfold seq at 1. unfold on_tmp_graph at 1. cbn. rewrite Htmp.
  unfold on_message. cbn. rewrite lookup_insert_ne, lookup_insert_ne by done.
  rewrite Hl, H1. eexists. split; [done|]. cbn.
  split_and!; try done. by rewrite lookup_insert_eq.
Qed.

End converter_outcomes.

Section environment_check.
Import GraphConverter.

(** X14.  [_check_tf_version] returns exactly when MKL is enabled and
    the version string lies between the two bounds in character order.
    In every other case, a failing import included, it raises the same
    unsupported-version error: the [ValueError] of the [except] clause is
    replaced by the one of the [finally] clause. *)
Theorem check_tf_version_outcomes (probe : result bool) (version : string) :
  (_check_tf_version probe version = Ok tt
   ↔ probe = Ok true
     ∧ String.leb TF_SUPPORTED_MIN_VERSION version = true
     ∧ String.leb version TF_SUPPORTED_MAX_VERSION = true)
  ∧ (_check_tf_version probe version = Ok tt
     ∨ _check_tf_version probe version = Raise unsupported_version_error).
Proof.
  unfold _check_tf_version, try_except_finally, raise.
  destruct probe as [[]|e]; cbn [andb state_of with_state].
  - destruct (String.leb TF_SUPPORTED_MIN_VERSION version);
      destruct (String.leb version TF_SUPPORTED_MAX_VERSION); cbn;
      (split; [split|auto]); try done; by intros (_ & ? & ?).
  - cbn. split; [split; [done|by intros ([=] & _)]|auto].
  - cbn. split; [split; [done|by intros ([=] & _)]|auto].
Qed.

(** X15.  Versions are compared as text.  With MKL enabled, a version
    [1.d...] whose minor number starts with a digit from 2 to 9 is
    accepted whatever follows (so 1.9.0 is, although it is older than
    1.14.0), and a version [1.0...] is rejected. *)
Theorem version_compared_as_text (d : ascii) (rest : string) :
  is_digit d = true → d ≠ "1"%char →
  _check_tf_version (Ok true) ("1." +:+ String d rest)
  = if Ascii.eqb d "0" then Raise unsupported_version_error else Ok tt.
Proof.
  intros Hd Hne.
  destruct d as [[] [] [] [] [] [] [] []]; try discriminate Hd; try done.
Qed.

End environment_check.

Section sampling.
Import GraphConverter.
Context {B : Type}.

Lemma sampling_loop_feeds (run : list B → B → result unit) calib
    (data_loader : list (list B)) (batches : list B) q fed :
  Forall2 (fun content b => content !! 0 = Some b) data_loader batches →
  (∀ fed b, b ∈ batches → run fed b = Ok tt) →
  sampling_loop run calib data_loader q fed
  = Ok (fed ++ if decide (q < calib)%Z
               then take (Z.to_nat (calib - q)) batches else batches).
Proof.
  intros Hheads. revert q fed.
  induction Hheads as [|content b data_loader batches Hb _ IH];
    intros q fed Hrun; cbn [sampling_loop].
  - rewrite take_nil. destruct (decide _); by rewrite app_nil_r.
  - unfold index. rewrite Hb. cbn [mbind result_bind bind].
    rewrite Hrun by left. cbn [mbind result_bind bind].
    destruct (decide (q + 1 = calib)%Z) as [<-|Hne].
    + destruct (decide (q < q + 1)%Z); [|lia].
      replace (Z.to_nat (q + 1 - q)) with 1 by lia. simpl. by rewrite take_0.
    + rewrite IH by (intros; apply Hrun; by right).
      rewrite <-app_assoc. simpl. f_equal. f_equal.
      destruct (decide (q < calib)%Z); destruct (decide (q + 1 < calib)%Z);
        try lia; [|done].
      replace (Z.to_nat (calib - q)) with (S (Z.to_nat (calib - (q + 1))))
        by lia.
      done.
Qed.

(** X17.  How many batches the sampling loop of [_inference] feeds.
    When every item of the loader has a first element and the session
    accepts them all, the loop feeds the first [calib_iteration] batches
    when that number is positive, and every batch of the loader when it
    is zero or negative. *)
Theorem sampling_loop_batches (run : list B → B → result unit)
    (calib_iteration : Z) (data_loader : list (list B)) (batches : list B) :
  Forall2 (fun content b => content !! 0 = Some b) data_loader batches →
  (∀ fed b, b ∈ batches → run fed b = Ok tt) →
  sampling_loop run calib_iteration data_loader 0 []
  = Ok (if decide (0 < calib_iteration)%Z
        then take (Z.to_nat calib_iteration) batches else batches).
Proof.
  intros Hheads Hrun.
  rewrite (sampling_loop_feeds run calib_iteration data_loader batches 0 []
             Hheads Hrun).
  simpl. by rewrite Z.sub_0_r.
Qed.

Lemma sampling_loop_prefix (run : list B → B → result unit) calib
    (pre rest : list (list B)) (batches : list B) q fed :
  Forall2 (fun content b => content !! 0 = Some b) pre batches →
  (∀ i b, batches !! i = Some b → run (fed ++ take i batches) b = Ok tt) →
  (∀ j, 1 ≤ j ≤ length batches → (q + Z.of_nat j)%Z ≠ calib) →
  sampling_loop run calib (pre ++ rest) q fed
  = sampling_loop run calib rest (q + Z.of_nat (length batches))%Z
      (fed ++ batches).
Proof.
  intros Hheads. revert q fed.
  induction Hheads as [|content b pre batches Hb _ IH];
    intros q fed Hrun Hlimit.
  - simpl. by rewrite Z.add_0_r, app_nil_r.
  - cbn [app sampling_loop]. unfold index. rewrite Hb.
    cbn [mbind result_bind bind].
    specialize (Hrun 0 b eq_refl) as Hfirst.
    rewrite take_0, app_nil_r in Hfirst. rewrite Hfirst.
    cbn [mbind result_bind bind].
    destruct (decide (q + 1 = calib)%Z) as [Heq|_].
    { exfalso. apply (Hlimit 1); [simpl; lia|done]. }
    rewrite IH.
    + rewrite <-app_assoc. simpl length. f_equal. lia.
    + intros i b' Hi. rewrite <-app_assoc. apply (Hrun (S i) b' Hi).
    + intros j Hj Heq. apply (Hlimit (S j)); [simpl; lia|lia].
Qed.

(** X18.  How the sampling loop of [_inference] ends on a failure.
    When the items before [content] were fed without reaching the
    calibration limit and the step on [content] raises [e], sampling ends
    without an error if [e] is an out-of-range error, keeping what was
    fed; any other exception, the [IndexError] of an empty item included,
    reaches the caller. *)
Theorem sampling_stops_on_failure (run : list B → B → result unit)
    (calib_iteration : Z) (pre rest : list (list B)) (content : list B)
    (batches : list B) (e : exn) :
  Forall2 (fun content b => content !! 0 = Some b) pre batches →
  (∀ i b, batches !! i = Some b → run (take i batches) b = Ok tt) →
  ¬ (0 < calib_iteration ≤ Z.of_nat (length batches))%Z →
  index content 0 ≫= run batches = Raise e →
  sampling_loop run calib_iteration (pre ++ content :: rest) 0 []
  = if is_out_of_range e then Ok batches else Raise e.
Proof.
  intros Hheads Hrun Hlimit Hfail.
  rewrite (sampling_loop_prefix run calib_iteration pre (content :: rest)
             batches 0 [] Hheads Hrun) by (intros j Hj; lia).
  cbn [app sampling_loop].
  destruct (index content 0) as [b|e0]; cbn in Hfail |- *.
  - by rewrite Hfail.
  - by injection Hfail as ->.
Qed.

End sampling.

Section dtypes.
Import GraphConverter.
Context {F : Type} `{Float F}.

(** X16.  [_get_dtypes] follows the order of the graph, not of
    [inputs]: two input lists with the same members give the same
    result, which holds one entry per graph node named in [inputs]; and
    the graph it leaves behind reads like the graph it was given. *)
Theorem get_dtypes_follows_graph_order (inputs inputs' : list string)
    (g : list (@NodeDef F)) :
  (∀ x, x ∈ inputs ↔ x ∈ inputs') →
  _get_dtypes inputs g = _get_dtypes inputs' g
  ∧ fst (_get_dtypes inputs g)
    = (fun n => attr_type (get_attr n "dtype"))
        <$> filter (fun n => name n ∈ inputs) g
  ∧ Forall2 (fun n n' => name n' = name n ∧ op n' = op n
                         ∧ input n' = input n
                         ∧ ∀ key, get_attr n' key = get_attr n key)
            g (snd (_get_dtypes inputs g)).
Proof.
  intros Hsame. unfold _get_dtypes. split_and!.
  - f_equal.
    + f_equal. apply list_filter_iff. intros n. apply Hsame.
    + apply list_fmap_ext. intros _ n _. simpl.
      destruct (decide (name n ∈ inputs)) as [Hi|Hi];
        destruct (decide (name n ∈ inputs')) as [Hi'|Hi']; try done;
        exfalso; [apply Hi', Hsame, Hi|apply Hi, Hsame, Hi'].
  - done.
  - simpl. apply Forall2_fmap_r, Forall_Forall2_diag, Forall_forall.
    intros n _. unfold compose.
    destruct (decide (name n ∈ inputs)); [|by repeat split].
    split_and!; try done. intros key. apply touch_attr_get_attr.
Qed.

End dtypes.


Section calibration_keys.
Import GraphConverter.

Lemma string_length_app (s t : string) :
  String.length (s +:+ t) = String.length s + String.length t.
Proof.
  induction s as [|c s IH]; [done|]. rewrite append_cons. simpl. by rewrite IH.
Qed.

Lemma split_head_char (c : ascii) (s t : string) :
  contains c s = false →
  split_head (String c "") (s +:+ String c t) = s.
Proof.
  induction s as [|d s IH]; intros Hs.
  - change ("" +:+ String c t) with (String c t). simpl.
    by rewrite Ascii.eqb_refl.
  - simpl in Hs. apply orb_false_elim in Hs as [Hd Hs].
    rewrite append_cons. simpl. rewrite Ascii.eqb_sym, Hd. simpl.
    by rewrite IH.
Qed.

Lemma rsplit_last_app (c : ascii) (s t : string) :
  contains c s = false →
  rsplit_last c (s +:+ String c t) = rsplit_last c (String c t).
Proof.
  set (rhs := rsplit_last c (String c t)).
  induction s as [|d s IH]; intros Hs; [done|].
  simpl in Hs. apply orb_false_elim in Hs as [Hd Hs].
  rewrite append_cons. cbn [rsplit_last].
  rewrite contains_app. cbn [contains]. rewrite Ascii.eqb_refl.
  rewrite orb_true_r. by apply IH.
Qed.

(** The marker cannot begin inside a name that does not hold it. *)
Lemma no_early_marker (u rest : string) :
  u ≠ EmptyString →
  (∀ pre post, u ≠ pre +:+ "__print" +:+ post) →
  startswith "__print" (u +:+ "__print" +:+ rest) = false.
Proof.
  intros Hne Hfree.
  destruct (startswith "__print" (u +:+ "__print" +:+ rest)) eqn:Hs; [|done].
  exfalso.
  destruct u as [|c1 [|c2 [|c3 [|c4 [|c5 [|c6 [|c7 u]]]]]]]; [done|..];
    rewrite ?append_cons in Hs;
    repeat match type of Hs with
           | context [EmptyString +:+ ?x] =>
               change (EmptyString +:+ x) with x in Hs
           end;
    rewrite ?append_cons in Hs;
    cbn [startswith] in Hs;
    repeat match type of Hs with
           | context [Ascii.eqb ?a ?b] =>
               destruct (Ascii.eqb_spec a b); [subst|done]; cbn [andb] in Hs
           end; try done.
  by apply (Hfree "" u).
Qed.

Lemma split_head_marker (name rest : string) :
  (∀ pre post, name ≠ pre +:+ "__print" +:+ post) →
  split_head "__print" (name +:+ "__print" +:+ rest) = name.
Proof.
  induction name as [|c u IH]; intros Hfree; [done|].
  pose proof (no_early_marker (String c u) rest) as Hno.
  rewrite append_cons in *. cbn [split_head]. rewrite Hno; [|done|done].
  f_equal. apply IH. intros pre post ->.
  by apply (Hfree (String c pre) post).
Qed.

Context {Data Histogram : Type}.
Context (get_all_fp32_data : string → Data).
Context (get_tensor_histogram : Data → Histogram).
Context (combine_histogram : Histogram → Data → Histogram).

(** X19.  The key under which [_get_fp32_print_node_names] registers
    a node is found again by [_generate_calibration_data].  For a node
    name without a colon and without the marker [__print], a captured
    line made of the node's key, a colon and data yields the key before
    its first colon and the node name before the marker, and the line's
    data is stored (or combined with the stored histogram) under the
    mapped name followed by [_eightbit_requant_range]. *)
Theorem kl_key_round_trip (i data node : string) (_kl_keys : list string)
    (_print_node_mapping : gmap string string)
    (_kl_op_dict : gmap string Histogram) :
  contains ":" i = false →
  (∀ pre post, i ≠ pre +:+ "__print" +:+ post) →
  kl_key i ∈ _kl_keys →
  _print_node_mapping !! i = Some node →
  let line := kl_key i +:+ ":" +:+ data in
  let fp32_data := get_all_fp32_data (rsplit_last ":" (":" +:+ data)) in
  let key := node +:+ "_eightbit_requant_range" in
  split_head ":" line = kl_key i
  ∧ split_head "__print" (drop_first line) = i
  ∧ record_line get_all_fp32_data get_tensor_histogram combine_histogram
      true _kl_keys _print_node_mapping line _kl_op_dict
    = Ok (<[key := match _kl_op_dict !! key with
                   | None => get_tensor_histogram fp32_data
                   | Some h => combine_histogram h fp32_data
                   end]> _kl_op_dict).
Proof.
  intros Hcolon Hfree Hkey Hnode line fp32_data key.
  assert (contains ":" (kl_key i) = false) as Hk.
  { unfold kl_key. change (";" +:+ i +:+ "__print__;__KL")
      with (String ";" (i +:+ "__print__;__KL")).
    cbn [contains]. rewrite contains_app, Hcolon. done. }
  assert (split_head ":" line = kl_key i) as Hhead.
  { by apply split_head_char. }
  assert (split_head "__print" (drop_first line) = i) as Hname.
  { unfold line, kl_key.
    change (drop_first ((";" +:+ i +:+ "__print__;__KL") +:+ ":" +:+ data))
      with ((i +:+ "__print__;__KL") +:+ ":" +:+ data).
    rewrite app_assoc_str.
    change ("__print__;__KL" +:+ ":" +:+ data)
      with ("__print" +:+ "__;__KL" +:+ ":" +:+ data).
    by apply split_head_marker. }
  split; [done|]. split; [done|].
  unfold record_line. rewrite Hhead, Hname.
  rewrite bool_decide_eq_true_2 by done. cbn [andb].
  unfold dict_get. rewrite Hnode. cbn.
  unfold line. change (":" +:+ data) with (String ":" data).
  rewrite (rsplit_last_app ":" (kl_key i) data Hk).
  subst key fp32_data.
  by destruct (_kl_op_dict !! (node +:+ "_eightbit_requant_range")).
Qed.

End calibration_keys.

Section extra_examples.
Import GraphConverter Examples.

Lemma folding_graph_distinct : NoDup (name <$> folding_graph).
Proof. apply (bool_decide_unpack _). vm_compute. exact I. Qed.

Lemma folding_graph_log : do_transform_log folding_graph = Ok [].
Proof. vm_compute. reflexivity. Qed.

Lemma folding_graph_map :
  build_node_map folding_graph ∅ = Ok (graph_map folding_graph).
Proof. apply build_node_map_graph_map, folding_graph_distinct. Qed.

Lemma every_candidate_folded_or_warned_witness :
  ∃ kept created folded,
    folded_graph = kept ++ created
    ∧ kept `sublist_of` folding_graph
    ∧ length created = 4 * folded
    ∧ folded + length (@nil warning)
      = length (filter (fun n => is_batch_norm n = true) folding_graph).
Proof.
  exact (every_candidate_folded_or_warned folding_graph folded_graph []
           folding_graph_folded folding_graph_log).
Defined.

Lemma dropped_exactly_when_matched_witness :
  ∃ kept created,
    folded_graph = kept ++ created
    ∧ kept `sublist_of` folding_graph
    ∧ (∀ n, n ∈ folding_graph →
         (n ∈ kept ↔
          ¬ ∃ bn m, bn ∈ folding_graph ∧ is_batch_norm bn = true
                    ∧ valid_match (graph_map folding_graph) bn m
                    ∧ name n ∈ matched_names bn m))
    ∧ Forall (fun n => is_batch_norm n = false) created.
Proof.
  exact (dropped_exactly_when_matched folding_graph folded_graph
           folding_graph_folded).
Defined.

Lemma valid_match_folds_witness :
  ∃ scaled_weights_op new_conv_op offset_op bias_add_op,
    folded_ops bn_node folding_match false
    = Ok [scaled_weights_op; new_conv_op; offset_op; bias_add_op].
Proof.
  apply (valid_match_folds (graph_map folding_graph) bn_node folding_match
           false eq_refl folding_match_valid).
  - done.
  - repeat constructor; eexists; vm_compute; reflexivity.
Defined.

Lemma reference_finds_node_witness :
  node_from_map (graph_map folding_graph) "conv" = Ok conv_node
  ∧ node_from_map (graph_map folding_graph) "^conv" = Ok conv_node
  ∧ node_from_map (graph_map folding_graph) "conv:0" = Ok conv_node
  ∧ node_from_map (graph_map folding_graph) "^conv:0" = Ok conv_node.
Proof.
  apply (reference_finds_node folding_graph (graph_map folding_graph)
           conv_node "0" folding_graph_map); try reflexivity; try done.
  unfold folding_graph. rewrite !elem_of_cons. auto 10.
Defined.

Lemma distinct_names_build_map_witness :
  ∃ node_map,
    build_node_map folding_graph ∅ = Ok node_map
    ∧ size node_map = 9
    ∧ ∀ k n, node_map !! k = Some n ↔ n ∈ folding_graph ∧ name n = k.
Proof.
  exact (distinct_names_build_map folding_graph folding_graph_distinct).
Defined.

Lemma second_pass_changes_nothing_witness :
  do_transform folded_graph = Ok folded_graph
  ∧ do_transform_log folded_graph = Ok [].
Proof.
  exact (second_pass_changes_nothing folding_graph folded_graph
           folding_graph_folded folding_graph_log folded_graph_distinct).
Defined.

Lemma name_with_port_not_found_witness :
  node_from_map (graph_map ported_graph) "x:0" ≠ Ok ported_node.
Proof.
  apply (name_with_port_not_found ported_graph (graph_map ported_graph)
           ported_node "x" "0"); try reflexivity; try done.
  by left.
Defined.

Lemma dangling_reference_aborts_witness :
  ∃ e, do_transform dangling_graph = Raise e
       ∧ do_transform_log dangling_graph = Raise e.
Proof.
  apply (dangling_reference_aborts dangling_graph bn_node "conv");
    try reflexivity.
  - apply (bool_decide_unpack _). vm_compute. exact I.
  - unfold dangling_graph. rewrite !elem_of_cons. auto 10.
Defined.

Lemma parse_output_records_witness :
  ∃ records,
    _parse_output captured_text [] = Ok ([] ++ records)
    ∧ records !! 0 = Some (";conv__print__;__KL:[1 2]" +:+ String newline "")
    ∧ records !! 1 = Some (";pool__print__;__KL:[3]" +:+ String newline "").
Proof.
  destruct (parse_output_records captured_text [] 2 eq_refl)
    as (starts & records & Hrun & Hlen & _ & Hrec).
  exists records. split; [done|].
  vm_compute in Hrun. injection Hrun as <-. split; reflexivity.
Defined.

Lemma insert_logging_failure_witness :
  ∃ c', _insert_logging broken_logging_env ready_converter
        = Throw (External "InvalidArgumentError") c'
        ∧ tmp_graph c'
          = Some (folded_graph ++
                  [simple "__requant_min_max:" "Print"
                     ["RequantizationRange"; "RequantizationRangePerChannel"]])
        ∧ files c' = files ready_converter.
Proof.
  destruct (insert_logging_failure_keeps_instrumented broken_logging_env
              ready_converter 0 folded_graph
              (External "InvalidArgumentError")
              (folded_graph ++
                 [simple "__requant_min_max:" "Print"
                    ["RequantizationRange"; "RequantizationRangePerChannel"]])
              eq_refl eq_refl eq_refl)
    as (c' & Hrun & Htmp & Hheap & Hfiles & _).
  exists c'. split; [done|]. split; [|done].
  unfold tmp_graph. rewrite Htmp. exact Hheap.
Defined.


Lemma version_compared_as_text_witness :
  _check_tf_version (Ok true) "1.9.0" = Ok tt.
Proof.
  exact (version_compared_as_text "9" ".0" eq_refl
           (fun Heq => eq_ind "9"%char
              (fun c => if Ascii.eqb c "9" then True else False) I _ Heq)).
Defined.

Lemma get_dtypes_follows_graph_order_witness :
  _get_dtypes ["w"; "x"] folding_graph
  = _get_dtypes ["x"; "w"; "x"] folding_graph.
Proof.
  apply (get_dtypes_follows_graph_order ["w"; "x"] ["x"; "w"; "x"]
           folding_graph).
  intros x. rewrite !elem_of_cons, elem_of_nil. tauto.
Defined.

Lemma sampling_loop_batches_witness :
  sampling_loop accepting_session 2 three_batches 0 [] = Ok [1; 2].
Proof.
  apply (sampling_loop_batches accepting_session 2 three_batches [1; 2; 3]).
  - by repeat constructor.
  - done.
Defined.

Lemma sampling_stops_on_failure_witness :
  sampling_loop exhausted_session 0 three_batches 0 [] = Ok [1; 2].
Proof.
  apply (sampling_stops_on_failure exhausted_session 0 [[1; 10]; [2; 20]] []
           [3; 30] [1; 2] (External "OutOfRangeError")).
  - by repeat constructor.
  - intros [|[|i]] b Hb; simplify_eq/=; reflexivity.
  - simpl. lia.
  - reflexivity.
Defined.

Lemma kl_key_round_trip_witness :
  split_head ":" ";conv__print__;__KL:[1 2]" = ";conv__print__;__KL"
  ∧ split_head "__print" "conv__print__;__KL:[1 2]" = "conv".
Proof.
  destruct (kl_key_round_trip (fun s => s) (fun d => [d])
              (fun h d => h ++ [d]) "conv" "[1 2]" "conv_eightbit"
              [kl_key "conv"] {[ "conv" := "conv_eightbit" ]} ∅)
    as (Hkey & Hnode & _); try reflexivity.
  - intros pre post Heq. apply (f_equal String.length) in Heq.
    rewrite !string_length_app in Heq. simpl in Heq. lia.
  - by left.
  - done.
Defined.

End extra_examples.
